(** * Fixed-step ODE integrators of [stronzos.ipynb]

    A shallow embedding of the seven solver routines of the notebook
    ([euler_method], [heun_method], [runge_kutta_method],
    [midpoint_method], [verlet_method_system], [euler_method_system],
    [runge_kutta_method_system]) and the properties of their
    trajectories.

    Modelling choices.
    - Python floats are read in exact arithmetic, as the reals [R]; what
      the time sequence satisfies in any arithmetic, binary64 included,
      is stated over the interface [Arith].
    - The routines are duck-typed: the state [y] is a float or a numpy
      array.  The arithmetic they use on states is collected in the
      interface [StateOps] (addition, float-times-state,
      state-times-float, state-divided-by-float); the algebraic laws of
      exact arithmetic are a separate interface, [StateLaws], assumed
      only where a property depends on them.
    - The derivative [f] is an opaque callable.  Every routine is written
      in an arbitrary monad [m] with [f : R -> V -> m V], so that the
      calls to [f] are an observable effect.  The monad [Traced] runs a
      pure [f] and records the arguments of each call in order.
    - The step count [n] is a Python [int], here [Z]; [range(n)] is empty
      for [n <= 0]. *)

From Stdlib Require Import Reals Lra ZArith Lia List.
From Stdlib Require Import Floats.PrimFloat.
From ExtLib Require Import Structures.Monad Structures.MonadLaws
  Data.Monads.OptionMonad.
Import ListNotations.
Import MonadNotation.
Local Open Scope monad_scope.
Local Open Scope R_scope.

(** ** Arithmetic on states *)

(** The operations the routines apply to a state value:
    [u + v], [a * v] (float on the left), [v * a] (float on the right)
    and [v / a]. [vzero] is the zero state, used only to write the
    identically-zero derivative. *)
Class StateOps (V : Type) : Type := {
  vzero : V;
  vadd : V -> V -> V;
  smul : R -> V -> V;
  vmul : V -> R -> V;
  vdiv : V -> R -> V
}.

Declare Scope state_scope.
Delimit Scope state_scope with state.
Infix "<+>" := vadd (at level 50, left associativity) : state_scope.
Infix "*>" := smul (at level 40, left associativity) : state_scope.
Infix "<*" := vmul (at level 40, left associativity) : state_scope.
Infix "</" := vdiv (at level 40, left associativity) : state_scope.
Local Open Scope state_scope.

(** The laws of exact arithmetic on states: a commutative monoid under
    addition on which the reals act linearly, the two multiplications
    agreeing and division by a nonzero float being multiplication by its
    inverse. *)
Class StateLaws (V : Type) `{StateOps V} : Prop := {
  vadd_comm : forall u v : V, u <+> v = v <+> u;
  vadd_assoc : forall u v w : V, u <+> (v <+> w) = u <+> v <+> w;
  vadd_zero_r : forall v : V, v <+> vzero = v;
  smul_one : forall v : V, 1 *> v = v;
  smul_zero_l : forall v : V, 0 *> v = vzero;
  smul_assoc : forall (a b : R) (v : V), a *> (b *> v) = (a * b) *> v;
  smul_vadd : forall (a : R) (u v : V), a *> (u <+> v) = a *> u <+> a *> v;
  smul_plus : forall (a b : R) (v : V), (a + b) *> v = a *> v <+> b *> v;
  vmul_smul : forall (v : V) (a : R), v <* a = a *> v;
  vdiv_smul : forall (v : V) (a : R), a <> 0 -> v </ a = / a *> v
}.

(** Floats as states. *)
#[export] Instance R_StateOps : StateOps R := {
  vzero := 0;
  vadd := Rplus;
  smul := Rmult;
  vmul := Rmult;
  vdiv := Rdiv
}.
(** Arrays as tuples of components, with componentwise arithmetic. *)
#[export] Instance prod_StateOps (A B : Type) `{StateOps A} `{StateOps B}
  : StateOps (A * B) := {
  vzero := (vzero, vzero);
  vadd := fun u v => (fst u <+> fst v, snd u <+> snd v);
  smul := fun a v => (a *> fst v, a *> snd v);
  vmul := fun v a => (fst v <* a, snd v <* a);
  vdiv := fun v a => (fst v </ a, snd v </ a)
}.

(** ** The loop *)

Section Loop.
Context {m : Type -> Type} {Monad_m : Monad m} {St : Type}.

(** [k] iterations of [body], threading the loop variables. *)
Fixpoint iterate (k : nat) (body : St -> m St) (s : St) : m St :=
  match k with
  | O => ret s
  | S k' => s' <- body s ;; iterate k' body s'
  end.

(** [for _ in range(n): body]; no iteration when [n <= 0]. *)
Definition for_range (n : Z) (body : St -> m St) (s : St) : m St :=
  iterate (Z.to_nat n) body s.
End Loop.

(** ** The integrators *)

Section Integrators.
Context {m : Type -> Type} {Monad_m : Monad m}.
Context {V : Type} {V_ops : StateOps V}.

Definition euler_method (f : R -> V -> m V) (y0 : V) (t0 h : R) (n : Z)
  : m (list R * list V) :=
  let t_values := [t0] in
  let y_values := [y0] in
  let y := y0 in
  let t := t0 in
  '(t_values, y_values, y, t) <-
    for_range n (fun '(t_values, y_values, y, t) =>
      f1 <- f t y ;;
      let y := y <+> h *> f1 in
      let t := t + h in
      let t_values := t_values ++ [t] in
      let y_values := y_values ++ [y] in
      ret (t_values, y_values, y, t))
    (t_values, y_values, y, t) ;;
  ret (t_values, y_values).

Definition heun_method (f : R -> V -> m V) (y0 : V) (t0 h : R) (n : Z)
  : m (list R * list V) :=
  let t_values := [t0] in
  let y_values := [y0] in
  let y := y0 in
  let t := t0 in
  '(t_values, y_values, y, t) <-
    for_range n (fun '(t_values, y_values, y, t) =>
      f1 <- f t y ;;
      let y_predictor := y <+> h *> f1 in
      f2 <- f t y ;;
      f3 <- f (t + h) y_predictor ;;
      let y := y <+> (h / 2) *> (f2 <+> f3) in
      let t := t + h in
      let t_values := t_values ++ [t] in
      let y_values := y_values ++ [y] in
      ret (t_values, y_values, y, t))
    (t_values, y_values, y, t) ;;
  ret (t_values, y_values).

Definition runge_kutta_method (f : R -> V -> m V) (y0 : V) (t0 h : R)
  (n : Z) : m (list R * list V) :=
  let t_values := [t0] in
  let y_values := [y0] in
  let y := y0 in
  let t := t0 in
  '(t_values, y_values, y, t) <-
    for_range n (fun '(t_values, y_values, y, t) =>
      k1 <- f t y ;;
      k2 <- f (t + h / 2) (y <+> k1 <* h </ 2) ;;
      k3 <- f (t + h / 2) (y <+> k2 <* h </ 2) ;;
      k4 <- f (t + h) (y <+> k3 <* h) ;;
      let y := y <+> (k1 <+> 2 *> k2 <+> 2 *> k3 <+> k4) <* h </ 6 in
      let t := t + h in
      let t_values := t_values ++ [t] in
      let y_values := y_values ++ [y] in
      ret (t_values, y_values, y, t))
    (t_values, y_values, y, t) ;;
  ret (t_values, y_values).

Definition midpoint_method (f : R -> V -> m V) (y0 : V) (t0 h : R)
  (n : Z) : m (list R * list V) :=
  let t_values := [t0] in
  let y_values := [y0] in
  let y := y0 in
  let t := t0 in
  '(t_values, y_values, y, t) <-
    for_range n (fun '(t_values, y_values, y, t) =>
      f1 <- f t y ;;
      let k1 := h *> f1 in
      f2 <- f (t + h / 2) (y <+> k1 </ 2) ;;
      let k2 := h *> f2 in
      let y := y <+> k2 in
      let t := t + h in
      let t_values := t_values ++ [t] in
      let y_values := y_values ++ [y] in
      ret (t_values, y_values, y, t))
    (t_values, y_values, y, t) ;;
  ret (t_values, y_values).

Definition verlet_method_system (f : R -> V -> V -> m V) (y0 v0 : V)
  (t0 h : R) (n : Z) : m (list R * list V * list V) :=
  let t_values := [t0] in
  let y_values := [y0] in
  let v_values := [v0] in
  let y := y0 in
  let v := v0 in
  let t := t0 in
  '(t_values, y_values, v_values, y, v, t) <-
    for_range n (fun '(t_values, y_values, v_values, y, v, t) =>
      a1 <- f t y v ;;
      let y_next := y <+> h *> v <+> (0.5 * h ^ 2) *> a1 in
      a_next <- f (t + h) y_next v ;;
      a2 <- f t y v ;;
      let v_next := v <+> (0.5 * h) *> (a2 <+> a_next) in
      let t := t + h in
      let '(y, v) := (y_next, v_next) in
      let t_values := t_values ++ [t] in
      let y_values := y_values ++ [y] in
      let v_values := v_values ++ [v] in
      ret (t_values, y_values, v_values, y, v, t))
    (t_values, y_values, v_values, y, v, t) ;;
  ret (t_values, y_values, v_values).

Definition euler_method_system (f : R -> V -> m V) (y0 : V) (t0 h : R)
  (n : Z) : m (list R * list V) :=
  let t_values := [t0] in
  let y_values := [y0] in
  let y := y0 in
  let t := t0 in
  '(t_values, y_values, y, t) <-
    for_range n (fun '(t_values, y_values, y, t) =>
      f1 <- f t y ;;
      let y := y <+> h *> f1 in
      let t := t + h in
      let t_values := t_values ++ [t] in
      let y_values := y_values ++ [y] in
      ret (t_values, y_values, y, t))
    (t_values, y_values, y, t) ;;
  ret (t_values, y_values).

Definition runge_kutta_method_system (f : R -> V -> m V) (y0 : V)
  (t0 h : R) (n : Z) : m (list R * list V) :=
  let t_values := [t0] in
  let y_values := [y0] in
  let y := y0 in
  let t := t0 in
  '(t_values, y_values, y, t) <-
    for_range n (fun '(t_values, y_values, y, t) =>
      f1 <- f t y ;;
      let k1 := h *> f1 in
      f2 <- f (t + h / 2) (y <+> k1 </ 2) ;;
      let k2 := h *> f2 in
      f3 <- f (t + h / 2) (y <+> k2 </ 2) ;;
      let k3 := h *> f3 in
      f4 <- f (t + h) (y <+> k3) ;;
      let k4 := h *> f4 in
      let y := y <+> (k1 <+> 2 *> k2 <+> 2 *> k3 <+> k4) </ 6 in
      let t := t + h in
      let t_values := t_values ++ [t] in
      let y_values := y_values ++ [y] in
      ret (t_values, y_values, y, t))
    (t_values, y_values, y, t) ;;
  ret (t_values, y_values).
End Integrators.

(** ** Running a pure derivative and recording its calls *)

(** A computation in [Traced E] yields a value and the list of the
    events of type [E] it produced, oldest first. *)
Definition Traced (E A : Type) : Type := (A * list E)%type.

#[export] Instance Monad_Traced (E : Type) : Monad (Traced E) := {
  ret := fun _ a => (a, []);
  bind := fun _ _ c k =>
    let '(a, l1) := c in let '(b, l2) := k a in (b, l1 ++ l2)
}.

(** The value computed and the calls made on the way. *)
Definition result {E A : Type} (c : Traced E A) : A := fst c.
Definition calls {E A : Type} (c : Traced E A) : list E := snd c.

(** A pure derivative [f(t, y)], each call recorded with its arguments. *)
Definition traced {V : Type} (f : R -> V -> V) : R -> V -> Traced (R * V) V :=
  fun t y => (f t y, [(t, y)]).

(** A pure acceleration [f(t, y, v)], each call recorded likewise. *)
Definition traced3 {V : Type} (f : R -> V -> V -> V)
  : R -> V -> V -> Traced (R * V * V) V :=
  fun t y v => (f t y v, [(t, y, v)]).

(** ** One-step schemes

  The six first-order routines share one loop shape: from [(t, y)] the
  step appends [t + h] and [phi t y], where [phi] is the update rule of
  the routine, and calls the derivative at the points [evals t y]. *)

Section OneStep.
Context {V : Type}.
Variables (phi : R -> V -> V) (evals : R -> V -> list (R * V)) (h : R).

Definition advance (s : list R * list V * V * R)
  : Traced (R * V) (list R * list V * V * R) :=
  let '(ts, ys, y, t) := s in
  ((ts ++ [t + h], ys ++ [phi t y], phi t y, t + h), evals t y).

Variables (t0 : R) (y0 : V).

(** What [k] steps from [(t0, y0)] leave in the two lists and in the
    record of calls. *)
Record trajectory_spec (k : nat) (ts : list R) (ys : list V)
  (log : list (R * V)) : Prop := {
  ts_length : length ts = S k;
  ys_length : length ys = S k;
  ts_first : forall d, nth 0 ts d = t0;
  ys_first : forall d, nth 0 ys d = y0;
  ts_step : forall i d, (i < k)%nat -> nth (S i) ts d = nth i ts d + h;
  ys_step : forall i d d', (i < k)%nat ->
    nth (S i) ys d = phi (nth i ts d') (nth i ys d);
  log_steps :
    log = flat_map (fun i => evals (nth i ts 0) (nth i ys y0)) (seq 0 k)
}.
End OneStep.

(** ** The update rule and the calls of each first-order routine

    For a pure [f], the loop body of each routine read as a function of
    [(t, y)]: the new state ([_rule]) and the arguments of the calls of
    [f] in the order the body makes them ([_calls]).  That the body of
    the routine is [advance] of its rule and calls is proved below
    ([euler_method_runs] and the like). *)

Section Rules.
Context {V : Type} {V_ops : StateOps V}.
Variables (f : R -> V -> V) (h : R).

Definition euler_rule (t : R) (y : V) : V := y <+> h *> f t y.
Definition euler_calls (t : R) (y : V) : list (R * V) := [(t, y)].

Definition heun_rule (t : R) (y : V) : V :=
  y <+> (h / 2) *> (f t y <+> f (t + h) (y <+> h *> f t y)).
Definition heun_calls (t : R) (y : V) : list (R * V) :=
  [(t, y); (t, y); (t + h, y <+> h *> f t y)].

Definition rk4_stages (t : R) (y : V) : V * V * V * V :=
  let k1 := f t y in
  let k2 := f (t + h / 2) (y <+> k1 <* h </ 2) in
  let k3 := f (t + h / 2) (y <+> k2 <* h </ 2) in
  let k4 := f (t + h) (y <+> k3 <* h) in
  (k1, k2, k3, k4).
Definition rk4_rule (t : R) (y : V) : V :=
  let '(k1, k2, k3, k4) := rk4_stages t y in
  y <+> (k1 <+> 2 *> k2 <+> 2 *> k3 <+> k4) <* h </ 6.
Definition rk4_calls (t : R) (y : V) : list (R * V) :=
  let '(k1, k2, k3, _) := rk4_stages t y in
  [(t, y); (t + h / 2, y <+> k1 <* h </ 2);
   (t + h / 2, y <+> k2 <* h </ 2); (t + h, y <+> k3 <* h)].

Definition midpoint_rule (t : R) (y : V) : V :=
  let k1 := h *> f t y in
  let k2 := h *> f (t + h / 2) (y <+> k1 </ 2) in
  y <+> k2.
Definition midpoint_calls (t : R) (y : V) : list (R * V) :=
  [(t, y); (t + h / 2, y <+> h *> f t y </ 2)].

Definition rk4_system_stages (t : R) (y : V) : V * V * V * V :=
  let k1 := h *> f t y in
  let k2 := h *> f (t + h / 2) (y <+> k1 </ 2) in
  let k3 := h *> f (t + h / 2) (y <+> k2 </ 2) in
  let k4 := h *> f (t + h) (y <+> k3) in
  (k1, k2, k3, k4).
Definition rk4_system_rule (t : R) (y : V) : V :=
  let '(k1, k2, k3, k4) := rk4_system_stages t y in
  y <+> (k1 <+> 2 *> k2 <+> 2 *> k3 <+> k4) </ 6.
Definition rk4_system_calls (t : R) (y : V) : list (R * V) :=
  let '(k1, k2, k3, _) := rk4_system_stages t y in
  [(t, y); (t + h / 2, y <+> k1 </ 2);
   (t + h / 2, y <+> k2 </ 2); (t + h, y <+> k3)].

Variables (y0 : V) (t0 : R) (n : Z).

(** A run of a first-order routine on a pure [f]: the pair of lists it
    returns and the calls it makes satisfy [trajectory_spec] for the
    rule [phi] and the call points [evals]. *)
Definition runs_as (phi : R -> V -> V) (evals : R -> V -> list (R * V))
  (r : Traced (R * V) (list R * list V)) : Prop :=
  trajectory_spec phi evals h t0 y0 (Z.to_nat n)
    (fst (result r)) (snd (result r)) (calls r).
End Rules.

(** ** The Verlet routine, step by step

    The loop body of [verlet_method_system] for a pure acceleration [f]:
    the new position and velocity, and the three calls of [f] in order
    ([f(t, y, v)] for [y_next], [f(t + h, y_next, v)] for [a_next],
    [f(t, y, v)] again for [v_next]). *)

Section Verlet.
Context {V : Type} {V_ops : StateOps V}.
Variables (f : R -> V -> V -> V) (h : R).

Definition verlet_position (t : R) (y v : V) : V :=
  y <+> h *> v <+> (0.5 * h ^ 2) *> f t y v.
Definition verlet_velocity (t : R) (y v : V) : V :=
  v <+> (0.5 * h) *> (f t y v <+> f (t + h) (verlet_position t y v) v).
Definition verlet_calls (t : R) (y v : V) : list (R * V * V) :=
  [(t, y, v); (t + h, verlet_position t y v, v); (t, y, v)].

Definition verlet_advance
  (s : list R * list V * list V * V * V * R)
  : Traced (R * V * V) (list R * list V * list V * V * V * R) :=
  let '(ts, ys, vs, y, v, t) := s in
  ((ts ++ [t + h], ys ++ [verlet_position t y v],
    vs ++ [verlet_velocity t y v],
    verlet_position t y v, verlet_velocity t y v, t + h),
   verlet_calls t y v).

Variables (t0 : R) (y0 v0 : V).

Record verlet_spec (k : nat) (ts : list R) (ys vs : list V)
  (log : list (R * V * V)) : Prop := {
  vt_length : length ts = S k;
  vy_length : length ys = S k;
  vv_length : length vs = S k;
  vt_first : forall d, nth 0 ts d = t0;
  vy_first : forall d, nth 0 ys d = y0;
  vv_first : forall d, nth 0 vs d = v0;
  vt_step : forall i d, (i < k)%nat ->
    nth (S i) ts d = nth i ts d + h;
  vy_step : forall i d d', (i < k)%nat ->
    nth (S i) ys d =
    verlet_position (nth i ts d') (nth i ys d) (nth i vs d);
  vv_step : forall i d d', (i < k)%nat ->
    nth (S i) vs d =
    verlet_velocity (nth i ts d') (nth i ys d) (nth i vs d);
  vlog_steps :
    log = flat_map
            (fun i => verlet_calls (nth i ts 0) (nth i ys y0) (nth i vs v0))
            (seq 0 k)
}.
End Verlet.

(** ** Properties of the returned sequences *)

(** A sequence of length [n + 1] whose entry 0 is [x0]. *)
Definition starts_with {A : Type} (x0 : A) (n : Z) (xs : list A) : Prop :=
  Z.of_nat (length xs) = (n + 1)%Z /\ nth_error xs 0 = Some x0.

(** [len(times) == len(states) == n + 1], [times[0] == t0],
    [states[0] == y0]. *)
Definition well_shaped {V : Type} (t0 : R) (y0 : V) (n : Z)
  (r : list R * list V) : Prop :=
  starts_with t0 n (fst r) /\ starts_with y0 n (snd r).

(** [times] is built by adding [h] to the previous entry: consecutive
    entries differ by [h], and entry [i] is [t0 + i*h], for the indices
    [i] up to [n]. *)
Definition accumulated_grid (t0 h : R) (n : Z) (times : list R) : Prop :=
  (forall i : nat, (1 <= i)%nat -> (Z.of_nat i <= n)%Z ->
     nth i times 0 = nth (i - 1) times 0 + h) /\
  (forall i : nat, (1 <= i)%nat -> (Z.of_nat i <= n)%Z ->
     nth i times 0 - nth (i - 1) times 0 = h) /\
  (forall i : nat, (Z.of_nat i <= n)%Z -> nth i times 0 = t0 + INR i * h).


(** [y0 + a*v0 + b*g]: the positions reachable from [y0] with velocity
    [v0] under the constant acceleration [g]. *)
Definition lin {V : Type} {V_ops : StateOps V} (g y0 v0 : V) (a b : R) : V :=
  y0 <+> a *> v0 <+> b *> g.

(** [sum_{j < k} x^j / j!], the partial sums of the exponential series. *)
Fixpoint exp_partial (k : nat) (x : R) : R :=
  match k with
  | O => 0
  | S k' => exp_partial k' x + x ^ k' / INR (fact k')
  end.


Definition returned3 {V E : Type}
  (c : Traced E (list R * list V * list V * V * V * R))
  : Traced E (list R * list V * list V) :=
  let '((ts, ys, vs, _, _, _), log) := c in ((ts, ys, vs), log).


Definition joined3 {V E : Type} (r1 r2 : Traced E (list R * list V * list V))
  : Traced E (list R * list V * list V) :=
  ((fst (fst (result r1)) ++ tl (fst (fst (result r2))),
    snd (fst (result r1)) ++ tl (snd (fst (result r2))),
    snd (result r1) ++ tl (snd (result r2))),
   calls r1 ++ calls r2).

(** ** The routines over any arithmetic

    The notebook's arithmetic is that of Python floats (binary64), not of
    the reals.  To tell what the routines do by construction from what
    holds only in exact arithmetic, they are written a second time over
    an interface [Arith] of the operations they use, on floats [T] and on
    states [V], with no law assumed.  At the reals this is the embedding
    above ([generic_at_reals]); at binary64 it is the arithmetic of the
    notebook. *)

Class Arith (T V : Type) : Type := {
  two : T;                      (* the literal [2] next to a float *)
  six : T;                      (* the literal [6] *)
  half : T;                     (* the literal [0.5] *)
  fadd : T -> T -> T;           (* float + float *)
  fmul : T -> T -> T;           (* float * float *)
  fdiv : T -> T -> T;           (* float / float *)
  fsquare : T -> T;             (* float ** 2 *)
  sadd : V -> V -> V;           (* state + state *)
  fmuls : T -> V -> V;          (* float * state *)
  smulf : V -> T -> V;          (* state * float *)
  sdivf : V -> T -> V           (* state / float *)
}.

Declare Scope arith_scope.
Delimit Scope arith_scope with arith.
Infix "+" := fadd (at level 50, left associativity) : arith_scope.
Infix "*" := fmul (at level 40, left associativity) : arith_scope.
Infix "/" := fdiv (at level 40, left associativity) : arith_scope.
Infix "<+>" := sadd (at level 50, left associativity) : arith_scope.
Infix "*>" := fmuls (at level 40, left associativity) : arith_scope.
Infix "<*" := smulf (at level 40, left associativity) : arith_scope.
Infix "</" := sdivf (at level 40, left associativity) : arith_scope.

Module Generic.
Section Routines.
Context {m : Type -> Type} {Monad_m : Monad m}.
Context {T V : Type} {A : Arith T V}.
Local Open Scope arith_scope.

Definition euler_method (f : T -> V -> m V) (y0 : V) (t0 h : T) (n : Z)
  : m (list T * list V) :=
  let t_values := [t0] in
  let y_values := [y0] in
  let y := y0 in
  let t := t0 in
  '(t_values, y_values, y, t) <-
    for_range n (fun '(t_values, y_values, y, t) =>
      f1 <- f t y ;;
      let y := y <+> h *> f1 in
      let t := t + h in
      let t_values := t_values ++ [t] in
      let y_values := y_values ++ [y] in
      ret (t_values, y_values, y, t))
    (t_values, y_values, y, t) ;;
  ret (t_values, y_values).

Definition heun_method (f : T -> V -> m V) (y0 : V) (t0 h : T) (n : Z)
  : m (list T * list V) :=
  let t_values := [t0] in
  let y_values := [y0] in
  let y := y0 in
  let t := t0 in
  '(t_values, y_values, y, t) <-
    for_range n (fun '(t_values, y_values, y, t) =>
      f1 <- f t y ;;
      let y_predictor := y <+> h *> f1 in
      f2 <- f t y ;;
      f3 <- f (t + h) y_predictor ;;
      let y := y <+> (h / two) *> (f2 <+> f3) in
      let t := t + h in
      let t_values := t_values ++ [t] in
      let y_values := y_values ++ [y] in
      ret (t_values, y_values, y, t))
    (t_values, y_values, y, t) ;;
  ret (t_values, y_values).

Definition runge_kutta_method (f : T -> V -> m V) (y0 : V) (t0 h : T)
  (n : Z) : m (list T * list V) :=
  let t_values := [t0] in
  let y_values := [y0] in
  let y := y0 in
  let t := t0 in
  '(t_values, y_values, y, t) <-
    for_range n (fun '(t_values, y_values, y, t) =>
      k1 <- f t y ;;
      k2 <- f (t + h / two) (y <+> k1 <* h </ two) ;;
      k3 <- f (t + h / two) (y <+> k2 <* h </ two) ;;
      k4 <- f (t + h) (y <+> k3 <* h) ;;
      let y := y <+> (k1 <+> two *> k2 <+> two *> k3 <+> k4) <* h </ six in
      let t := t + h in
      let t_values := t_values ++ [t] in
      let y_values := y_values ++ [y] in
      ret (t_values, y_values, y, t))
    (t_values, y_values, y, t) ;;
  ret (t_values, y_values).

Definition midpoint_method (f : T -> V -> m V) (y0 : V) (t0 h : T)
  (n : Z) : m (list T * list V) :=
  let t_values := [t0] in
  let y_values := [y0] in
  let y := y0 in
  let t := t0 in
  '(t_values, y_values, y, t) <-
    for_range n (fun '(t_values, y_values, y, t) =>
      f1 <- f t y ;;
      let k1 := h *> f1 in
      f2 <- f (t + h / two) (y <+> k1 </ two) ;;
      let k2 := h *> f2 in
      let y := y <+> k2 in
      let t := t + h in
      let t_values := t_values ++ [t] in
      let y_values := y_values ++ [y] in
      ret (t_values, y_values, y, t))
    (t_values, y_values, y, t) ;;
  ret (t_values, y_values).

Definition verlet_method_system (f : T -> V -> V -> m V) (y0 v0 : V)
  (t0 h : T) (n : Z) : m (list T * list V * list V) :=
  let t_values := [t0] in
  let y_values := [y0] in
  let v_values := [v0] in
  let y := y0 in
  let v := v0 in
  let t := t0 in
  '(t_values, y_values, v_values, y, v, t) <-
    for_range n (fun '(t_values, y_values, v_values, y, v, t) =>
      a1 <- f t y v ;;
      let y_next := y <+> h *> v <+> (half * fsquare h) *> a1 in
      a_next <- f (t + h) y_next v ;;
      a2 <- f t y v ;;
      let v_next := v <+> (half * h) *> (a2 <+> a_next) in
      let t := t + h in
      let '(y, v) := (y_next, v_next) in
      let t_values := t_values ++ [t] in
      let y_values := y_values ++ [y] in
      let v_values := v_values ++ [v] in
      ret (t_values, y_values, v_values, y, v, t))
    (t_values, y_values, v_values, y, v, t) ;;
  ret (t_values, y_values, v_values).

Definition euler_method_system (f : T -> V -> m V) (y0 : V) (t0 h : T)
  (n : Z) : m (list T * list V) :=
  let t_values := [t0] in
  let y_values := [y0] in
  let y := y0 in
  let t := t0 in
  '(t_values, y_values, y, t) <-
    for_range n (fun '(t_values, y_values, y, t) =>
      f1 <- f t y ;;
      let y := y <+> h *> f1 in
      let t := t + h in
      let t_values := t_values ++ [t] in
      let y_values := y_values ++ [y] in
      ret (t_values, y_values, y, t))
    (t_values, y_values, y, t) ;;
  ret (t_values, y_values).

Definition runge_kutta_method_system (f : T -> V -> m V) (y0 : V)
  (t0 h : T) (n : Z) : m (list T * list V) :=
  let t_values := [t0] in
  let y_values := [y0] in
  let y := y0 in
  let t := t0 in
  '(t_values, y_values, y, t) <-
    for_range n (fun '(t_values, y_values, y, t) =>
      f1 <- f t y ;;
      let k1 := h *> f1 in
      f2 <- f (t + h / two) (y <+> k1 </ two) ;;
      let k2 := h *> f2 in
      f3 <- f (t + h / two) (y <+> k2 </ two) ;;
      let k3 := h *> f3 in
      f4 <- f (t + h) (y <+> k3) ;;
      let k4 := h *> f4 in
      let y := y <+> (k1 <+> two *> k2 <+> two *> k3 <+> k4) </ six in
      let t := t + h in
      let t_values := t_values ++ [t] in
      let y_values := y_values ++ [y] in
      ret (t_values, y_values, y, t))
    (t_values, y_values, y, t) ;;
  ret (t_values, y_values).
End Routines.
End Generic.

(** Exact arithmetic: the reals as floats, any [StateOps] as states. *)
#[export] Instance Arith_exact (V : Type) {V_ops : StateOps V} : Arith R V := {
  two := 2;
  six := 6;
  half := 0.5;
  fadd := Rplus;
  fmul := Rmult;
  fdiv := Rdiv;
  fsquare := fun x => x ^ 2;
  sadd := vadd;
  fmuls := smul;
  smulf := vmul;
  sdivf := vdiv
}.

(** The arithmetic of the notebook on float states: binary64 with
    round-to-nearest.  [h ** 2] goes through the C library's [pow], whose
    rounding the language does not fix; it is the parameter [pow2]. *)
Definition Arith_binary64 (pow2 : float -> float) : Arith float float := {|
  two := 2%float;
  six := 6%float;
  half := 0.5%float;
  fadd := PrimFloat.add;
  fmul := PrimFloat.mul;
  fdiv := PrimFloat.div;
  fsquare := pow2;
  sadd := PrimFloat.add;
  fmuls := PrimFloat.mul;
  smulf := PrimFloat.mul;
  sdivf := PrimFloat.div
|}.

(** A derivative on any kind of float, each call recorded. *)
Definition traced_on {T V : Type} (f : T -> V -> V)
  : T -> V -> Traced (T * V) V :=
  fun t y => (f t y, [(t, y)]).

Definition traced3_on {T V : Type} (f : T -> V -> V -> V)
  : T -> V -> V -> Traced (T * V * V) V :=
  fun t y v => (f t y v, [(t, y, v)]).

(** [times[i] == times[i-1] + h] for [1 <= i <= n], the sum being that
    of the arithmetic [add]. *)
Definition accumulated_by {T : Type} (add : T -> T -> T) (h : T) (n : Z)
  (times : list T) : Prop :=
  forall (i : nat) (d : T), (1 <= i)%nat -> (Z.of_nat i <= n)%Z ->
    nth i times d = add (nth (i - 1) times d) h.

(** * Properties *)

(** ** Instances of the laws *)

#[export] Instance R_StateLaws : StateLaws R.
Proof.
  split; intros; cbn; unfold Rdiv; lra.
Qed.

#[export] Instance prod_StateLaws (A B : Type)
  `{StateLaws A} `{StateLaws B} : StateLaws (A * B).
Proof.
  split; intros; cbn; try destruct v as [v1 v2]; cbn; f_equal;
    auto using vadd_comm, vadd_assoc, vadd_zero_r, smul_one, smul_zero_l,
      smul_assoc, smul_vadd, smul_plus, vmul_smul, vdiv_smul.
Qed.

#[export] Instance MonadLaws_Traced (E : Type) : MonadLaws (Monad_Traced E).
Proof.
  split.
  - intros A B a k. cbn. now destruct (k a).
  - intros A [a l]. cbn. now rewrite app_nil_r.
  - intros A B C [a l] k k'. cbn.
    destruct (k a) as [b l1]. destruct (k' b) as [c l2].
    now rewrite app_assoc.
Qed.

#[export] Instance MonadLaws_option : MonadLaws Monad_option.
Proof.
  split.
  - reflexivity.
  - now intros A [a|].
  - intros A B C [a|] k k'; [|reflexivity]. cbn. now destruct (k a).
Qed.

(** ** Loops in [Traced] *)

Section TracedLoop.
Context {E St : Type}.
Implicit Types (body : St -> Traced E St) (s : St).

Lemma iterate_ext body body' :
  (forall s, body s = body' s) ->
  forall k s, iterate k body s = iterate k body' s.
Proof.
  intros Hb k; induction k as [|k IH]; intros s; cbn; [reflexivity|].
  rewrite Hb. destruct (body' s) as [s1 l1]. now rewrite IH.
Qed.

(** The last iteration peeled off. *)
Lemma iterate_snoc body k s :
  iterate (S k) body s = (s' <- iterate k body s ;; body s').
Proof.
  revert s; induction k as [|k IH]; intros s.
  - cbn. destruct (body s) as [s1 l1]. now rewrite app_nil_r.
  - cbn [iterate bind Monad_Traced]. destruct (body s) as [s1 l1].
    specialize (IH s1). cbn [iterate bind Monad_Traced] in IH. rewrite IH.
    destruct (iterate k body s1) as [s2 l2].
    destruct (body s2) as [s3 l3].
    now rewrite app_assoc.
Qed.
End TracedLoop.

(** ** Lists *)

Lemma flat_map_ext_seq {A : Type} (g g' : nat -> list A) k :
  (forall i, (i < k)%nat -> g i = g' i) ->
  flat_map g (seq 0 k) = flat_map g' (seq 0 k).
Proof.
  intros Hg. rewrite !flat_map_concat_map. f_equal.
  apply map_ext_in. intros i Hi. apply in_seq in Hi. apply Hg. lia.
Qed.

Lemma flat_map_length_const {A B : Type} (g : A -> list B) (c : nat)
  (l : list A) :
  (forall x, length (g x) = c) -> length (flat_map g l) = (c * length l)%nat.
Proof.
  intros Hg. induction l as [|x l IH]; cbn; [lia|].
  rewrite length_app, Hg, IH. lia.
Qed.

(** ** One-step schemes *)

Section OneStepFacts.
Context {V : Type}.
Variables (phi : R -> V -> V) (evals : R -> V -> list (R * V)) (h : R).
Variables (t0 : R) (y0 : V).

Local Abbreviation step := (advance phi evals h).
Local Abbreviation spec := (trajectory_spec phi evals h t0 y0).

Lemma iterate_advance k :
  forall ts ys y t log,
    iterate k step ([t0], [y0], y0, t0) = ((ts, ys, y, t), log) ->
    spec k ts ys log /\
    (forall d, nth k ts d = t) /\ (forall d, nth k ys d = y).
Proof.
  induction k as [|k IH]; intros ts ys y t log.
  - cbn. intros [= <- <- <- <- <-].
    split; [split|split]; cbn; intros; try reflexivity; lia.
  - rewrite iterate_snoc. cbn [bind Monad_Traced].
    destruct (iterate k step ([t0], [y0], y0, t0))
      as [[[[ts1 ys1] y1] t1] log1] eqn:Hk.
    destruct (IH _ _ _ _ _ eq_refl) as [[Hlt Hly Ht0 Hy0 Hts Hys Hlog] [Ht Hy]].
    cbn. intros [= <- <- <- <- <-].
    assert (Hnt : forall i d, (i <= k)%nat ->
              nth i (ts1 ++ [t1 + h]) d = nth i ts1 d)
      by (intros; apply app_nth1; lia).
    assert (Hny : forall i d, (i <= k)%nat ->
              nth i (ys1 ++ [phi t1 y1]) d = nth i ys1 d)
      by (intros; apply app_nth1; lia).
    assert (Hlast_t : forall d, nth (S k) (ts1 ++ [t1 + h]) d = t1 + h).
    { intros d. rewrite app_nth2 by lia. rewrite Hlt, Nat.sub_diag. reflexivity. }
    assert (Hlast_y : forall d,
              nth (S k) (ys1 ++ [phi t1 y1]) d = phi t1 y1).
    { intros d. rewrite app_nth2 by lia. rewrite Hly, Nat.sub_diag. reflexivity. }
    split; [split|split]; try assumption.
    + rewrite length_app, Hlt. cbn. lia.
    + rewrite length_app, Hly. cbn. lia.
    + intros d. rewrite Hnt by lia. apply Ht0.
    + intros d. rewrite Hny by lia. apply Hy0.
    + intros i d Hi. destruct (Nat.eq_dec i k) as [->|Hne].
      * rewrite Hlast_t, Hnt by lia. now rewrite Ht.
      * rewrite !Hnt by lia. apply Hts. lia.
    + intros i d d' Hi. destruct (Nat.eq_dec i k) as [->|Hne].
      * rewrite Hlast_y, Hnt, Hny by lia. now rewrite Ht, Hy.
      * rewrite Hnt, !Hny by lia. apply Hys. lia.
    + rewrite seq_S, flat_map_app. cbn. rewrite app_nil_r.
      rewrite Hnt, Hny, Ht, Hy by lia. f_equal.
      rewrite Hlog. apply flat_map_ext_seq.
      intros i Hi. now rewrite Hnt, Hny by lia.
Qed.

(** A routine whose loop body is [step] and which returns the two
    lists meets [spec]. *)
Lemma one_step_method (body : _ -> Traced (R * V) _) (n : Z) :
  (forall s, body s = step s) ->
  let r := ('(t_values, y_values, _, _) <-
              for_range n body ([t0], [y0], y0, t0) ;;
            ret (t_values, y_values)) in
  spec (Z.to_nat n) (fst (result r)) (snd (result r)) (calls r).
Proof.
  intros Hb r. subst r. unfold for_range.
  rewrite (iterate_ext _ _ Hb). cbn [bind ret Monad_Traced].
  destruct (iterate (Z.to_nat n) step ([t0], [y0], y0, t0))
    as [[[[ts ys] y] t] log] eqn:Hk.
  cbn. rewrite app_nil_r.
  now destruct (iterate_advance _ _ _ _ _ _ Hk).
Qed.
End OneStepFacts.

(** ** Each first-order routine as a one-step scheme *)

Section RunsOfRoutines.
Context {V : Type} {V_ops : StateOps V}.
Variables (f : R -> V -> V) (h : R) (y0 : V) (t0 : R) (n : Z).

Ltac by_one_step :=
  apply one_step_method; intros [[[ts ys] y] t]; reflexivity.

Lemma euler_method_runs :
  runs_as h y0 t0 n (euler_rule f h) euler_calls
    (euler_method (traced f) y0 t0 h n).
Proof. by_one_step. Qed.

Lemma heun_method_runs :
  runs_as h y0 t0 n (heun_rule f h) (heun_calls f h)
    (heun_method (traced f) y0 t0 h n).
Proof. by_one_step. Qed.

Lemma runge_kutta_method_runs :
  runs_as h y0 t0 n (rk4_rule f h) (rk4_calls f h)
    (runge_kutta_method (traced f) y0 t0 h n).
Proof. by_one_step. Qed.

Lemma midpoint_method_runs :
  runs_as h y0 t0 n (midpoint_rule f h) (midpoint_calls f h)
    (midpoint_method (traced f) y0 t0 h n).
Proof. by_one_step. Qed.

Lemma euler_method_system_runs :
  runs_as h y0 t0 n (euler_rule f h) euler_calls
    (euler_method_system (traced f) y0 t0 h n).
Proof. by_one_step. Qed.

Lemma runge_kutta_method_system_runs :
  runs_as h y0 t0 n (rk4_system_rule f h) (rk4_system_calls f h)
    (runge_kutta_method_system (traced f) y0 t0 h n).
Proof. by_one_step. Qed.
End RunsOfRoutines.

(** ** The Verlet routine as a one-step scheme *)

Section VerletFacts.
Context {V : Type} {V_ops : StateOps V}.
Variables (f : R -> V -> V -> V) (h : R).
Variables (t0 : R) (y0 v0 : V).

Local Abbreviation vstep := (verlet_advance f h).
Local Abbreviation vspec := (verlet_spec f h t0 y0 v0).

Lemma iterate_verlet_advance k :
  forall ts ys vs y v t log,
    iterate k vstep ([t0], [y0], [v0], y0, v0, t0)
    = ((ts, ys, vs, y, v, t), log) ->
    vspec k ts ys vs log /\
    (forall d, nth k ts d = t) /\ (forall d, nth k ys d = y) /\
    (forall d, nth k vs d = v).
Proof.
  induction k as [|k IH]; intros ts ys vs y v t log.
  - cbn. intros [= <- <- <- <- <- <- <-].
    split; [split|repeat split]; cbn; intros; try reflexivity; lia.
  - rewrite iterate_snoc. cbn [bind Monad_Traced].
    destruct (iterate k vstep ([t0], [y0], [v0], y0, v0, t0))
      as [[[[[[ts1 ys1] vs1] y1] v1] t1] log1] eqn:Hk.
    destruct (IH _ _ _ _ _ _ _ eq_refl)
      as [[Hlt Hly Hlv Ht0 Hy0 Hv0 Hts Hys Hvs Hlog] [Ht [Hy Hv]]].
    cbn. intros [= <- <- <- <- <- <- <-].
    set (y2 := verlet_position f h t1 y1 v1).
    set (v2 := verlet_velocity f h t1 y1 v1).
    assert (Hnt : forall i d, (i <= k)%nat ->
              nth i (ts1 ++ [t1 + h]) d = nth i ts1 d)
      by (intros; apply app_nth1; lia).
    assert (Hny : forall i d, (i <= k)%nat ->
              nth i (ys1 ++ [y2]) d = nth i ys1 d)
      by (intros; apply app_nth1; lia).
    assert (Hnv : forall i d, (i <= k)%nat ->
              nth i (vs1 ++ [v2]) d = nth i vs1 d)
      by (intros; apply app_nth1; lia).
    assert (Hlast_t : forall d,
              nth (S k) (ts1 ++ [t1 + h]) d = t1 + h).
    { intros d. rewrite app_nth2 by lia. now rewrite Hlt, Nat.sub_diag. }
    assert (Hlast_y : forall d, nth (S k) (ys1 ++ [y2]) d = y2).
    { intros d. rewrite app_nth2 by lia. now rewrite Hly, Nat.sub_diag. }
    assert (Hlast_v : forall d, nth (S k) (vs1 ++ [v2]) d = v2).
    { intros d. rewrite app_nth2 by lia. now rewrite Hlv, Nat.sub_diag. }
    split; [split|repeat split]; try assumption.
    + rewrite length_app, Hlt. cbn. lia.
    + rewrite length_app, Hly. cbn. lia.
    + rewrite length_app, Hlv. cbn. lia.
    + intros d. rewrite Hnt by lia. apply Ht0.
    + intros d. rewrite Hny by lia. apply Hy0.
    + intros d. rewrite Hnv by lia. apply Hv0.
    + intros i d Hi. destruct (Nat.eq_dec i k) as [->|Hne].
      * rewrite Hlast_t, Hnt by lia. now rewrite Ht.
      * rewrite !Hnt by lia. apply Hts. lia.
    + intros i d d' Hi. destruct (Nat.eq_dec i k) as [->|Hne].
      * rewrite Hlast_y, Hnt, Hny, Hnv by lia. now rewrite Ht, Hy, Hv.
      * rewrite Hnt, !Hny, Hnv by lia. apply Hys. lia.
    + intros i d d' Hi. destruct (Nat.eq_dec i k) as [->|Hne].
      * rewrite Hlast_v, Hnt, Hny, Hnv by lia. now rewrite Ht, Hy, Hv.
      * rewrite Hnt, Hny, !Hnv by lia. apply Hvs. lia.
    + rewrite seq_S, flat_map_app. cbn [flat_map Nat.add]. rewrite app_nil_r.
      rewrite Hnt, Hny, Hnv, Ht, Hy, Hv by lia. f_equal.
      rewrite Hlog. apply flat_map_ext_seq.
      intros i Hi. now rewrite Hnt, Hny, Hnv by lia.
Qed.

(** A run of [verlet_method_system] on a pure acceleration. *)
Lemma verlet_method_system_runs (n : Z) :
  let r := verlet_method_system (traced3 f) y0 v0 t0 h n in
  vspec (Z.to_nat n) (fst (fst (result r))) (snd (fst (result r)))
    (snd (result r)) (calls r).
Proof.
  intros r. subst r. unfold verlet_method_system, for_range.
  rewrite (iterate_ext _ vstep)
    by (intros [[[[[ts ys] vs] y] v] t]; reflexivity).
  cbn [bind ret Monad_Traced].
  destruct (iterate (Z.to_nat n) vstep ([t0], [y0], [v0], y0, v0, t0))
    as [[[[[[ts ys] vs] y] v] t] log] eqn:Hk.
  cbn. rewrite app_nil_r.
  now destruct (iterate_verlet_advance _ _ _ _ _ _ _ _ Hk).
Qed.
End VerletFacts.

(** ** Shape of the returned sequences *)

Lemma starts_with_intro {A : Type} (x0 : A) (n : Z) (xs : list A) :
  (0 <= n)%Z ->
  length xs = S (Z.to_nat n) ->
  (forall d, nth 0 xs d = x0) ->
  starts_with x0 n xs.
Proof.
  intros Hn Hlen H0. split; [lia|].
  destruct xs as [|x xs]; [discriminate|].
  cbn. f_equal. exact (H0 x).
Qed.

Lemma runs_as_well_shaped {V : Type}
  (phi : R -> V -> V) (evals : R -> V -> list (R * V))
  (h : R) (y0 : V) (t0 : R) (n : Z) (r : Traced (R * V) (list R * list V)) :
  (0 <= n)%Z ->
  runs_as h y0 t0 n phi evals r -> well_shaped t0 y0 n (result r).
Proof.
  intros Hn [Hlt Hly Ht0 Hy0 _ _ _].
  split; apply starts_with_intro; assumption.
Qed.

(** C1. For a step count [n >= 0], every routine returns sequences of
    length [n + 1] whose first entries are the initial data: [times[0]]
    is [t0], [states[0]] is [y0] and, for [verlet_method_system],
    [velocities[0]] is [v0]. *)
Theorem returned_sequences_shape {V : Type} {V_ops : StateOps V}
  (f : R -> V -> V) (a : R -> V -> V -> V) (y0 v0 : V) (t0 h : R) (n : Z) :
  (0 <= n)%Z ->
  well_shaped t0 y0 n (result (euler_method (traced f) y0 t0 h n)) /\
  well_shaped t0 y0 n (result (heun_method (traced f) y0 t0 h n)) /\
  well_shaped t0 y0 n (result (runge_kutta_method (traced f) y0 t0 h n)) /\
  well_shaped t0 y0 n (result (midpoint_method (traced f) y0 t0 h n)) /\
  well_shaped t0 y0 n (result (euler_method_system (traced f) y0 t0 h n)) /\
  well_shaped t0 y0 n
    (result (runge_kutta_method_system (traced f) y0 t0 h n)) /\
  (let '(times, states, velocities) :=
     result (verlet_method_system (traced3 a) y0 v0 t0 h n) in
   starts_with t0 n times /\ starts_with y0 n states /\
   starts_with v0 n velocities).
Proof.
  intros Hn.
  repeat (split; [eapply runs_as_well_shaped; try exact Hn;
                  eauto using euler_method_runs, heun_method_runs,
                    runge_kutta_method_runs, midpoint_method_runs,
                    euler_method_system_runs,
                    runge_kutta_method_system_runs|]).
  pose proof (verlet_method_system_runs a h t0 y0 v0 n) as Hv. cbv zeta in Hv.
  destruct (result (verlet_method_system (traced3 a) y0 v0 t0 h n))
    as [[ts ys] vs].
  cbn [fst snd result] in Hv.
  destruct Hv as [Hlt Hly Hlv Ht0 Hy0 Hv0 _ _ _ _].
  split; [|split]; apply starts_with_intro; assumption.
Qed.

Lemma returned_sequences_shape_witness :
  (0 <= 2)%Z /\
  well_shaped 0 1 2
    (result (euler_method (traced (fun _ y : R => y)) 1 0 0.1 2)).
Proof.
  split; [lia|].
  apply (returned_sequences_shape (fun _ y : R => y) (fun _ _ _ : R => 0)
           1 0 0 0.1 2).
  lia.
Defined.

(** ** The time grid *)

Lemma accumulated_grid_intro (t0 h : R) (n : Z) (ts : list R) :
  (forall d, nth 0 ts d = t0) ->
  (forall i d, (i < Z.to_nat n)%nat ->
     nth (S i) ts d = nth i ts d + h) ->
  accumulated_grid t0 h n ts.
Proof.
  intros H0 Hstep.
  assert (Hprev : forall i : nat, (1 <= i)%nat -> (Z.of_nat i <= n)%Z ->
            nth i ts 0 = nth (i - 1) ts 0 + h).
  { intros [|i] Hi Hin; [lia|].
    replace (S i - 1)%nat with i by lia. apply Hstep. lia. }
  split; [exact Hprev|split].
  - intros i Hi Hin. rewrite (Hprev i Hi Hin). lra.
  - induction i as [|i IH]; intros Hin.
    + rewrite H0. cbn. lra.
    + rewrite Hstep by lia. rewrite IH by lia. rewrite S_INR. lra.
Qed.

Lemma runs_as_grid {V : Type}
  (phi : R -> V -> V) (evals : R -> V -> list (R * V))
  (h : R) (y0 : V) (t0 : R) (n : Z) (r : Traced (R * V) (list R * list V)) :
  runs_as h y0 t0 n phi evals r -> accumulated_grid t0 h n (fst (result r)).
Proof.
  intros [_ _ Ht0 _ Hts _ _]. now apply accumulated_grid_intro.
Qed.

(** In exact arithmetic the times of every routine form the grid
    [t0 + i*h]. *)
Lemma times_exact_grid {V : Type} {V_ops : StateOps V}
  (f : R -> V -> V) (a : R -> V -> V -> V) (y0 v0 : V) (t0 h : R) (n : Z) :
  accumulated_grid t0 h n (fst (result (euler_method (traced f) y0 t0 h n))) /\
  accumulated_grid t0 h n (fst (result (heun_method (traced f) y0 t0 h n))) /\
  accumulated_grid t0 h n
    (fst (result (runge_kutta_method (traced f) y0 t0 h n))) /\
  accumulated_grid t0 h n
    (fst (result (midpoint_method (traced f) y0 t0 h n))) /\
  accumulated_grid t0 h n
    (fst (result (euler_method_system (traced f) y0 t0 h n))) /\
  accumulated_grid t0 h n
    (fst (result (runge_kutta_method_system (traced f) y0 t0 h n))) /\
  accumulated_grid t0 h n
    (fst (fst (result (verlet_method_system (traced3 a) y0 v0 t0 h n)))).
Proof.
  repeat (split; [eapply runs_as_grid;
                  eauto using euler_method_runs, heun_method_runs,
                    runge_kutta_method_runs, midpoint_method_runs,
                    euler_method_system_runs,
                    runge_kutta_method_system_runs|]).
  destruct (verlet_method_system_runs a h t0 y0 v0 n)
    as [_ _ _ Ht0 _ _ Hts _ _ _].
  now apply accumulated_grid_intro.
Qed.

(** *** Accumulation in any arithmetic *)

Lemma fst_bind_traced {E A B : Type} (c : Traced E A) (k : A -> Traced E B) :
  fst (x <- c ;; k x) = fst (k (fst c)).
Proof. destruct c as [a l]. cbn. now destruct (k a). Qed.

Section Clock.
Context {T E St : Type}.
Variables (add : T -> T -> T) (h : T).
Variables (times_of : St -> list T) (clock : St -> T).
Variable body : St -> Traced E St.

(** The body appends the clock plus [h] and advances the clock to it. *)
Hypothesis body_ticks : forall s,
  times_of (fst (body s)) = times_of s ++ [add (clock s) h] /\
  clock (fst (body s)) = add (clock s) h.

Lemma iterate_ticks (k : nat) (s0 : St) (t0 : T) :
  times_of s0 = [t0] -> clock s0 = t0 ->
  let s := fst (iterate k body s0) in
  length (times_of s) = S k /\
  (forall i d, (i < k)%nat ->
     nth (S i) (times_of s) d = add (nth i (times_of s) d) h) /\
  (forall d, nth k (times_of s) d = clock s).
Proof.
  intros Hts Hc. induction k as [|k IH]; cbv zeta.
  - cbn. rewrite Hts, Hc. repeat split; intros; cbn; try reflexivity; lia.
  - rewrite iterate_snoc, fst_bind_traced.
    destruct IH as (Hlen & Hstep & Hlast).
    destruct (body_ticks (fst (iterate k body s0))) as [Hb Hb'].
    rewrite Hb, Hb'.
    assert (Hn : forall i d, (i <= k)%nat ->
              nth i (times_of (fst (iterate k body s0))
                     ++ [add (clock (fst (iterate k body s0))) h]) d
              = nth i (times_of (fst (iterate k body s0))) d)
      by (intros; apply app_nth1; lia).
    assert (Hnew : forall d,
              nth (S k) (times_of (fst (iterate k body s0))
                         ++ [add (clock (fst (iterate k body s0))) h]) d
              = add (clock (fst (iterate k body s0))) h).
    { intros d. rewrite app_nth2 by lia. now rewrite Hlen, Nat.sub_diag. }
    split; [rewrite length_app, Hlen; cbn; lia|split].
    + intros i d Hi. destruct (Nat.eq_dec i k) as [->|Hne].
      * now rewrite Hnew, Hn, Hlast by lia.
      * rewrite !Hn by lia. apply Hstep. lia.
    + exact Hnew.
Qed.

Lemma iterate_accumulates (n : Z) (s0 : St) (t0 : T) :
  times_of s0 = [t0] -> clock s0 = t0 ->
  accumulated_by add h n (times_of (fst (for_range n body s0))).
Proof.
  intros Hts Hc i d Hi Hin.
  destruct (iterate_ticks (Z.to_nat n) s0 t0 Hts Hc) as (_ & Hstep & _).
  destruct i as [|i]; [lia|].
  replace (S i - 1)%nat with i by lia. apply Hstep. lia.
Qed.
End Clock.

Section GenericTimes.
Context {T V : Type} {A : Arith T V}.
Variables (f : T -> V -> V) (a : T -> V -> V -> V).
Variables (y0 v0 : V) (t0 h : T) (n : Z).

Ltac first_order_clock :=
  unfold Generic.euler_method, Generic.heun_method,
    Generic.runge_kutta_method, Generic.midpoint_method,
    Generic.euler_method_system, Generic.runge_kutta_method_system;
  unfold result; rewrite fst_bind_traced;
  match goal with
  | |- context [for_range n ?body ?s0] =>
      pose proof (iterate_accumulates fadd h
                    (fun s : list T * list V * V * T => fst (fst (fst s)))
                    (fun s : list T * list V * V * T => snd s)
                    body) as Hacc;
      specialize (Hacc ltac:(intros [[[ts ys] y] t]; split; reflexivity)
                    n s0 t0 eq_refl eq_refl);
      cbv beta in Hacc;
      destruct (fst (for_range n body s0)) as [[[ts ys] y] t];
      exact Hacc
  end.

Lemma generic_euler_times :
  accumulated_by fadd h n
    (fst (result (Generic.euler_method (traced_on f) y0 t0 h n))).
Proof. first_order_clock. Qed.

Lemma generic_heun_times :
  accumulated_by fadd h n
    (fst (result (Generic.heun_method (traced_on f) y0 t0 h n))).
Proof. first_order_clock. Qed.

Lemma generic_runge_kutta_times :
  accumulated_by fadd h n
    (fst (result (Generic.runge_kutta_method (traced_on f) y0 t0 h n))).
Proof. first_order_clock. Qed.

Lemma generic_midpoint_times :
  accumulated_by fadd h n
    (fst (result (Generic.midpoint_method (traced_on f) y0 t0 h n))).
Proof. first_order_clock. Qed.

Lemma generic_euler_system_times :
  accumulated_by fadd h n
    (fst (result (Generic.euler_method_system (traced_on f) y0 t0 h n))).
Proof. first_order_clock. Qed.

Lemma generic_runge_kutta_system_times :
  accumulated_by fadd h n
    (fst (result
       (Generic.runge_kutta_method_system (traced_on f) y0 t0 h n))).
Proof. first_order_clock. Qed.

Lemma generic_verlet_times :
  accumulated_by fadd h n
    (fst (fst (result
       (Generic.verlet_method_system (traced3_on a) y0 v0 t0 h n)))).
Proof.
  unfold Generic.verlet_method_system, result. rewrite fst_bind_traced.
  match goal with
  | |- context [for_range n ?body ?s0] =>
      pose proof (iterate_accumulates fadd h
                    (fun s : list T * list V * list V * V * V * T =>
                       fst (fst (fst (fst (fst s)))))
                    (fun s : list T * list V * list V * V * V * T => snd s)
                    body) as Hacc;
      specialize (Hacc ltac:(intros [[[[[ts ys] vs] y] v] t];
                             split; reflexivity)
                    n s0 t0 eq_refl eq_refl);
      cbv beta in Hacc;
      destruct (fst (for_range n body s0)) as [[[[[ts ys] vs] y] v] t];
      exact Hacc
  end.
Qed.
End GenericTimes.

(** At the reals the routines over [Arith] are the routines of the
    embedding in exact arithmetic. *)
Lemma generic_at_reals {m : Type -> Type} {Monad_m : Monad m}
  {V : Type} {V_ops : StateOps V}
  (f : R -> V -> m V) (a : R -> V -> V -> m V) (y0 v0 : V) (t0 h : R) (n : Z) :
  Generic.euler_method f y0 t0 h n = euler_method f y0 t0 h n /\
  Generic.heun_method f y0 t0 h n = heun_method f y0 t0 h n /\
  Generic.runge_kutta_method f y0 t0 h n = runge_kutta_method f y0 t0 h n /\
  Generic.midpoint_method f y0 t0 h n = midpoint_method f y0 t0 h n /\
  Generic.euler_method_system f y0 t0 h n = euler_method_system f y0 t0 h n /\
  Generic.runge_kutta_method_system f y0 t0 h n
    = runge_kutta_method_system f y0 t0 h n /\
  Generic.verlet_method_system a y0 v0 t0 h n
    = verlet_method_system a y0 v0 t0 h n.
Proof. repeat split. Qed.

(** *** In binary64 *)

#[local] Set Warnings "-inexact-float".

(** C2, as stated, in the notebook's arithmetic: three Euler steps of
    [h = 0.1] from [t0 = 0] give [times[3] - times[2] != h]. *)
Lemma times_difference_binary64 :
  let times :=
    fst (result
      (Generic.euler_method (A := Arith_binary64 (fun x => x * x)%float)
         (traced_on (fun _ y : float => y)) 1%float 0%float 0.1%float 3)) in
  times = [0; 0.1; 0.2; 0.30000000000000004]%float /\
  PrimFloat.eqb (nth 3 times 0 - nth 2 times 0)%float 0.1%float = false.
Proof. vm_compute. split; reflexivity. Qed.

(** Accumulating is not recomputing: after six steps the accumulated time
    is not [t0 + 6*h]. *)
Example accumulated_is_not_recomputed_binary64 :
  let times :=
    fst (result
      (Generic.heun_method (A := Arith_binary64 (fun x => x * x)%float)
         (traced_on (fun _ y : float => y)) 1%float 0%float 0.1%float 6)) in
  PrimFloat.eqb (nth 6 times 0%float) (0 + 6 * 0.1)%float = false.
Proof. vm_compute. reflexivity. Qed.

(** C2, amended. In every routine each iteration appends the previous
    time plus [h], whatever the arithmetic:
    [times[i] == times[i-1] + h] for [1 <= i <= n], with the sum as the
    run computes it.  In exact arithmetic this gives
    [times[i] - times[i-1] == h] for [1 <= i <= n] and
    [times[i] == t0 + i*h] for [0 <= i <= n]. *)
Theorem times_accumulate_h :
  (forall (T V : Type) (A : Arith T V)
          (f : T -> V -> V) (a : T -> V -> V -> V)
          (y0 v0 : V) (t0 h : T) (n : Z),
     accumulated_by fadd h n
       (fst (result (Generic.euler_method (traced_on f) y0 t0 h n))) /\
     accumulated_by fadd h n
       (fst (result (Generic.heun_method (traced_on f) y0 t0 h n))) /\
     accumulated_by fadd h n
       (fst (result (Generic.runge_kutta_method (traced_on f) y0 t0 h n))) /\
     accumulated_by fadd h n
       (fst (result (Generic.midpoint_method (traced_on f) y0 t0 h n))) /\
     accumulated_by fadd h n
       (fst (result (Generic.euler_method_system (traced_on f) y0 t0 h n))) /\
     accumulated_by fadd h n
       (fst (result
          (Generic.runge_kutta_method_system (traced_on f) y0 t0 h n))) /\
     accumulated_by fadd h n
       (fst (fst (result
          (Generic.verlet_method_system (traced3_on a) y0 v0 t0 h n))))) /\
  (forall (V : Type) (V_ops : StateOps V)
          (f : R -> V -> V) (a : R -> V -> V -> V)
          (y0 v0 : V) (t0 h : R) (n : Z),
     accumulated_grid t0 h n
       (fst (result (euler_method (traced f) y0 t0 h n))) /\
     accumulated_grid t0 h n
       (fst (result (heun_method (traced f) y0 t0 h n))) /\
     accumulated_grid t0 h n
       (fst (result (runge_kutta_method (traced f) y0 t0 h n))) /\
     accumulated_grid t0 h n
       (fst (result (midpoint_method (traced f) y0 t0 h n))) /\
     accumulated_grid t0 h n
       (fst (result (euler_method_system (traced f) y0 t0 h n))) /\
     accumulated_grid t0 h n
       (fst (result (runge_kutta_method_system (traced f) y0 t0 h n))) /\
     accumulated_grid t0 h n
       (fst (fst (result (verlet_method_system (traced3 a) y0 v0 t0 h n))))).
Proof.
  split.
  - intros T V A f a y0 v0 t0 h n.
    repeat split;
      auto using generic_euler_times, generic_heun_times,
        generic_runge_kutta_times, generic_midpoint_times,
        generic_euler_system_times, generic_runge_kutta_system_times,
        generic_verlet_times.
  - intros V V_ops f a y0 v0 t0 h n. apply times_exact_grid.
Qed.

(** In binary64, [times[3]] of a Runge-Kutta run is the rounded sum
    [times[2] + 0.1]; in exact arithmetic, the grid of a two-step Heun
    run from [t0 = 1] with [h = 0.25]. *)
Lemma times_accumulate_h_witness :
  (let times :=
     fst (result
       (Generic.runge_kutta_method
          (A := Arith_binary64 (fun x => x * x)%float)
          (traced_on (fun t y : float => (t * y)%float))
          1%float 0%float 0.1%float 3)) in
   nth 3 times 0%float = (nth 2 times 0 + 0.1)%float) /\
  (let times :=
     fst (result (heun_method (traced (fun t y : R => t * y)) 3 1 0.25 2)) in
   nth 2 times 0 - nth 1 times 0 = 0.25 /\ nth 2 times 0 = 1.5).
Proof.
  destruct times_accumulate_h as [Hany Hexact]. split.
  - destruct (Hany float float (Arith_binary64 (fun x => x * x)%float)
                (fun t y : float => (t * y)%float)
                (fun _ _ _ : float => 0%float)
                1%float 0%float 0%float 0.1%float 3%Z)
      as (_ & _ & Hrk & _).
    cbv zeta. apply (Hrk 3%nat 0%float); lia.
  - destruct (Hexact R R_StateOps (fun t y : R => t * y)
                (fun _ _ _ : R => 0) 3 0 1 0.25 2%Z)
      as (_ & (_ & Hd & Hg) & _).
    cbv zeta. split.
    + apply (Hd 2%nat); lia.
    + rewrite (Hg 2%nat) by lia. cbn. lra.
Defined.

(** ** The two Runge-Kutta routines *)

Section RungeKuttaAgree.
Context {V : Type} {V_ops : StateOps V} {V_laws : StateLaws V}.
Variables (f : R -> V -> V) (h : R).

(** The stages of the array routine are those of the float routine
    multiplied by [h]. *)
Lemma rk4_system_stages_scaled t y :
  rk4_system_stages f h t y =
  let '(k1, k2, k3, k4) := rk4_stages f h t y in
  (h *> k1, h *> k2, h *> k3, h *> k4).
Proof.
  unfold rk4_system_stages, rk4_stages. cbv zeta.
  now rewrite <- !vmul_smul.
Qed.

Lemma rk4_combination (k1 k2 k3 k4 : V) :
  h *> k1 <+> 2 *> (h *> k2) <+> 2 *> (h *> k3) <+> h *> k4 =
  (k1 <+> 2 *> k2 <+> 2 *> k3 <+> k4) <* h.
Proof.
  rewrite vmul_smul, !smul_vadd, !smul_assoc.
  now rewrite (Rmult_comm h 2).
Qed.

Lemma rk4_system_rule_eq t y : rk4_system_rule f h t y = rk4_rule f h t y.
Proof.
  unfold rk4_system_rule, rk4_rule. rewrite rk4_system_stages_scaled.
  destruct (rk4_stages f h t y) as [[[k1 k2] k3] k4].
  now rewrite rk4_combination.
Qed.

Lemma rk4_system_calls_eq t y : rk4_system_calls f h t y = rk4_calls f h t y.
Proof.
  unfold rk4_system_calls, rk4_calls. rewrite rk4_system_stages_scaled.
  destruct (rk4_stages f h t y) as [[[k1 k2] k3] k4].
  now rewrite <- !vmul_smul.
Qed.

Lemma advance_rk4_eq s :
  advance (rk4_system_rule f h) (rk4_system_calls f h) h s =
  advance (rk4_rule f h) (rk4_calls f h) h s.
Proof.
  destruct s as [[[ts ys] y] t]. unfold advance.
  now rewrite rk4_system_rule_eq, rk4_system_calls_eq.
Qed.
End RungeKuttaAgree.

(** C3. In exact arithmetic the float routine [runge_kutta_method], which
    multiplies each [k_i] by [h] where it is used, and the array routine
    [runge_kutta_method_system], which multiplies [f] by [h] when each
    [k_i] is computed, return the same trajectory for every [f], [y0],
    [t0], [h] and [n] (and call [f] at the same points). *)
Theorem runge_kutta_variants_agree {V : Type} {V_ops : StateOps V}
  (V_laws : StateLaws V) (f : R -> V -> V) (y0 : V) (t0 h : R) (n : Z) :
  result (runge_kutta_method (traced f) y0 t0 h n) =
  result (runge_kutta_method_system (traced f) y0 t0 h n) /\
  calls (runge_kutta_method (traced f) y0 t0 h n) =
  calls (runge_kutta_method_system (traced f) y0 t0 h n).
Proof.
  assert (Heq : runge_kutta_method (traced f) y0 t0 h n =
                runge_kutta_method_system (traced f) y0 t0 h n).
  { unfold runge_kutta_method, runge_kutta_method_system, for_range.
    rewrite (iterate_ext _ (advance (rk4_rule f h) (rk4_calls f h) h))
      by (intros [[[ts ys] y] t]; reflexivity).
    symmetry.
    rewrite (iterate_ext _ (advance (rk4_rule f h) (rk4_calls f h) h));
      [reflexivity|].
    intros s. rewrite <- advance_rk4_eq.
    destruct s as [[[ts ys] y] t]. reflexivity. }
  now rewrite Heq.
Qed.

Lemma runge_kutta_variants_agree_witness :
  result (runge_kutta_method (traced (fun t y : R => t + y)) 1 0 0.5 3) =
  result (runge_kutta_method_system (traced (fun t y : R => t + y)) 1 0 0.5 3).
Proof.
  apply (runge_kutta_variants_agree R_StateLaws (fun t y : R => t + y)
           1 0 0.5 3).
Defined.

(** ** The Verlet step *)

(** C4. Every step of [verlet_method_system] takes the entries
    [(t, y, v)] at index [i] to the entries at index [i + 1] by
    [y_next = y + h*v + 0.5*h^2*f(t,y,v)],
    [a_next = f(t+h, y_next, v)] (new position, old velocity),
    [v_next = v + 0.5*h*(f(t,y,v) + a_next)] and [t + h]; the
    acceleration is called, in this order, for [y_next], for [a_next] and
    again for [v_next]. *)
Theorem verlet_step {V : Type} {V_ops : StateOps V}
  (f : R -> V -> V -> V) (y0 v0 : V) (t0 h : R) (n : Z) :
  let r := verlet_method_system (traced3 f) y0 v0 t0 h n in
  let times := fst (fst (result r)) in
  let states := snd (fst (result r)) in
  let velocities := snd (result r) in
  (forall (i : nat) (d : V), (Z.of_nat i < n)%Z ->
     let t := nth i times 0 in
     let y := nth i states d in
     let v := nth i velocities d in
     let y_next := y <+> h *> v <+> (0.5 * h ^ 2) *> f t y v in
     let a_next := f (t + h) y_next v in
     let v_next := v <+> (0.5 * h) *> (f t y v <+> a_next) in
     nth (S i) times 0 = t + h /\
     nth (S i) states d = y_next /\
     nth (S i) velocities d = v_next) /\
  calls r =
    flat_map
      (fun i : nat =>
         let t := nth i times 0 in
         let y := nth i states y0 in
         let v := nth i velocities v0 in
         let y_next := y <+> h *> v <+> (0.5 * h ^ 2) *> f t y v in
         [(t, y, v); (t + h, y_next, v); (t, y, v)])
      (seq 0 (Z.to_nat n)).
Proof.
  intros r times states velocities.
  destruct (verlet_method_system_runs f h t0 y0 v0 n)
    as [_ _ _ _ _ _ Hts Hys Hvs Hlog].
  fold r in Hts, Hys, Hvs, Hlog. fold times in Hts, Hys, Hvs, Hlog.
  fold states in Hys, Hvs, Hlog. fold velocities in Hys, Hvs, Hlog.
  split.
  - intros i d Hi. cbv zeta.
    assert (Hi' : (i < Z.to_nat n)%nat) by lia.
    rewrite (Hts i 0 Hi'), (Hys i d 0 Hi'), (Hvs i d 0 Hi').
    repeat split.
  - exact Hlog.
Qed.

Lemma verlet_step_witness :
  let r := verlet_method_system
             (traced3 (fun (t y v : R) => - y)) 1 0 0 0.5 2 in
  nth 2 (snd (fst (result r))) 0 =
    nth 1 (snd (fst (result r))) 0 + 0.5 * nth 1 (snd (result r)) 0 +
    0.5 * 0.5 ^ 2 * - nth 1 (snd (fst (result r))) 0.
Proof.
  intros r.
  destruct (verlet_step (fun (t y v : R) => - y) 1 0 0 0.5 2) as [Hstep _].
  destruct (Hstep 1%nat 0) as (_ & Hy & _); [lia|].
  exact Hy.
Defined.

(** ** Verlet under constant acceleration *)

Section ConstantAcceleration.
Context {V : Type} {V_ops : StateOps V} {V_laws : StateLaws V}.

Lemma vadd_swap (x p q : V) : x <+> p <+> q = x <+> q <+> p.
Proof. now rewrite <- vadd_assoc, (vadd_comm p q), vadd_assoc. Qed.

Lemma smul_zero_r (a : R) : a *> (vzero : V) = vzero.
Proof.
  rewrite <- (smul_zero_l vzero) at 1.
  now rewrite smul_assoc, Rmult_0_r, smul_zero_l.
Qed.

Lemma vadd_zero_l (v : V) : vzero <+> v = v.
Proof. now rewrite vadd_comm, vadd_zero_r. Qed.

Variables (g y0 v0 : V).

Lemma lin_0 : lin g y0 v0 0 0 = y0.
Proof. unfold lin. now rewrite !smul_zero_l, !vadd_zero_r. Qed.

Lemma lin_step (a b c h : R) :
  lin g y0 v0 a b <+> h *> (v0 <+> c *> g) <+> (0.5 * h ^ 2) *> g =
  lin g y0 v0 (a + h) (b + h * c + 0.5 * h ^ 2).
Proof.
  unfold lin.
  rewrite smul_vadd, smul_assoc, !smul_plus, !vadd_assoc.
  f_equal. f_equal. apply vadd_swap.
Qed.

Lemma velocity_step (c h : R) :
  v0 <+> c *> g <+> (0.5 * h) *> (g <+> g) = v0 <+> (c + h) *> g.
Proof.
  rewrite <- vadd_assoc, smul_vadd, <- !smul_plus.
  do 2 f_equal. lra.
Qed.

Variables (t0 h : R) (n : Z).

Lemma constant_acceleration_run :
  let r := verlet_method_system (traced3 (fun _ _ _ => g)) y0 v0 t0 h n in
  forall (i : nat) (d : V), (Z.of_nat i <= n)%Z ->
    nth i (snd (fst (result r))) d
      = lin g y0 v0 (INR i * h) (0.5 * (INR i * h) ^ 2) /\
    nth i (snd (result r)) d = v0 <+> (INR i * h) *> g.
Proof.
  intros r.
  destruct (verlet_method_system_runs (fun _ _ _ => g) h t0 y0 v0 n)
    as [_ _ _ _ Hy0 Hv0 _ Hys Hvs _].
  fold r in Hy0, Hv0, Hys, Hvs.
  induction i as [|i IH]; intros d Hi.
  - rewrite Hy0, Hv0. cbn [INR]. rewrite !Rmult_0_l.
    replace (0.5 * 0 ^ 2) with 0 by lra.
    now rewrite lin_0, smul_zero_l, vadd_zero_r.
  - destruct (IH d ltac:(lia)) as [IHy IHv].
    rewrite (Hys i d 0), (Hvs i d 0) by lia.
    unfold verlet_position, verlet_velocity.
    rewrite IHy, IHv, lin_step, velocity_step, S_INR.
    split; [f_equal; lra | do 2 f_equal; lra].
Qed.
End ConstantAcceleration.

(** C5. With a constant acceleration [g], in exact arithmetic the
    positions returned by [verlet_method_system] are those of uniformly
    accelerated motion: [y_i = y0 + v0*(i*h) + 0.5*g*(i*h)^2] for every
    index [i] in [[0, n]]. *)
Theorem verlet_constant_acceleration {V : Type} {V_ops : StateOps V}
  (V_laws : StateLaws V) (g y0 v0 : V) (t0 h : R) (n : Z)
  (i : nat) (d : V) :
  (Z.of_nat i <= n)%Z ->
  let r := verlet_method_system (traced3 (fun _ _ _ => g)) y0 v0 t0 h n in
  nth i (snd (fst (result r))) d =
  y0 <+> v0 <* (INR i * h) <+> 0.5 *> g <* (INR i * h) ^ 2.
Proof.
  intros Hi r.
  destruct (constant_acceleration_run g y0 v0 t0 h n i d Hi) as [Hy _].
  fold r in Hy. rewrite Hy. unfold lin.
  rewrite !vmul_smul, smul_assoc. do 2 f_equal. lra.
Qed.

Lemma verlet_constant_acceleration_witness :
  (Z.of_nat 2 <= 3)%Z /\
  nth 2 (snd (fst (result
     (verlet_method_system (traced3 (fun (_ : R) (_ _ : R * R) => (0, -9.8)))
        (0, 10) (3, 4) 0 0.1 3)))) (0, 0) =
  ((0, 10) : R * R) <+> ((3, 4) : R * R) <* (INR 2 * 0.1)
    <+> 0.5 *> ((0, -9.8) : R * R) <* (INR 2 * 0.1) ^ 2.
Proof.
  split; [lia|].
  apply (verlet_constant_acceleration (prod_StateLaws R R)
           (0, -9.8) (0, 10) (3, 4) 0 0.1 3 2%nat (0, 0)).
  lia.
Defined.

(** ** The zero derivative *)

Section ZeroDerivative.
Context {V : Type} {V_ops : StateOps V} {V_laws : StateLaws V}.
Variable h : R.

Lemma vdiv_zero (a : R) : a <> 0 -> (vzero : V) </ a = vzero.
Proof. intros Ha. now rewrite vdiv_smul, smul_zero_r. Qed.





End ZeroDerivative.

(** A rule that leaves the state unchanged yields a constant trajectory. *)
Lemma runs_as_constant {V : Type}
  (phi : R -> V -> V) (evals : R -> V -> list (R * V))
  (h : R) (y0 : V) (t0 : R) (n : Z) (r : Traced (R * V) (list R * list V)) :
  (forall t y, phi t y = y) ->
  runs_as h y0 t0 n phi evals r ->
  forall (i : nat) (d : V), (Z.of_nat i <= n)%Z -> nth i (snd (result r)) d = y0.
Proof.
  intros Hphi [_ _ _ Hy0 _ Hys _].
  induction i as [|i IH]; intros d Hi.
  - apply Hy0.
  - rewrite (Hys i d 0) by lia. rewrite Hphi. apply IH. lia.
Qed.




(** ** Steps and derivative evaluations of Euler and Heun *)

(** C7. [euler_method] takes [states[i]] to
    [states[i] + h*f(times[i], states[i])] and calls [f] once per step,
    at [(times[i], states[i])]; for [f(t,y) = y], [y0 = 1], [t0 = 0],
    [h = 0.1], [n = 1] it returns [states[1] == 1.1]. *)
Theorem euler_step {V : Type} {V_ops : StateOps V}
  (f : R -> V -> V) (y0 : V) (t0 h : R) (n : Z) :
  let r := euler_method (traced f) y0 t0 h n in
  let times := fst (result r) in
  let states := snd (result r) in
  (forall (i : nat) (d : V), (Z.of_nat i < n)%Z ->
     nth (S i) states d =
     nth i states d <+> h *> f (nth i times 0) (nth i states d)) /\
  calls r =
    flat_map (fun i : nat => [(nth i times 0, nth i states y0)])
      (seq 0 (Z.to_nat n)) /\
  length (calls r) = Z.to_nat n /\
  nth 1 (snd (result (euler_method (traced (fun _ y : R => y)) 1 0 0.1 1))) 0
  = 1.1.
Proof.
  intros r times states.
  destruct (euler_method_runs f h y0 t0 n) as [_ _ _ _ _ Hys Hlog].
  fold r in Hys, Hlog. fold times in Hys, Hlog. fold states in Hys, Hlog.
  split; [|split; [|split]].
  - intros i d Hi. rewrite (Hys i d 0) by lia. reflexivity.
  - exact Hlog.
  - rewrite Hlog, (flat_map_length_const _ 1), length_seq by reflexivity. lia.
  - unfold euler_method, for_range. change (Z.to_nat 1) with 1%nat.
    cbn. lra.
Qed.

Lemma euler_step_witness :
  let r := euler_method (traced (fun t y : R => t - y)) 2 0 0.5 3 in
  nth 3 (snd (result r)) 0 =
  nth 2 (snd (result r)) 0 +
  0.5 * (nth 2 (fst (result r)) 0 - nth 2 (snd (result r)) 0).
Proof.
  intros r.
  destruct (euler_step (fun t y : R => t - y) 2 0 0.5 3) as [Hstep _].
  apply (Hstep 2%nat 0). lia.
Defined.

(** C8, as stated: one step of [heun_method] makes three calls of [f],
    not two. *)
Lemma heun_one_step_calls :
  calls (heun_method (traced (fun _ y : R => y)) 1 0 0.1 1) =
    [(0, 1); (0, 1); (0 + 0.1, 1 + 0.1 * 1)] /\
  length (calls (heun_method (traced (fun _ y : R => y)) 1 0 0.1 1)) <> 2%nat.
Proof.
  split; [reflexivity|]. cbn. discriminate.
Qed.

(** C8, amended. [heun_method] takes [states[i]] to
    [y + (h/2)*(f(t,y) + f(t+h, yp))] with the predictor
    [yp = y + h*f(t,y)], where [(t, y)] are the entries at index [i].  It
    calls [f] three times per step: at [(t, y)] for the predictor, at
    [(t, y)] again and at [(t+h, yp)] for the corrector; so [f] is
    evaluated at two points per step. *)
Theorem heun_step {V : Type} {V_ops : StateOps V}
  (f : R -> V -> V) (y0 : V) (t0 h : R) (n : Z) :
  let r := heun_method (traced f) y0 t0 h n in
  let times := fst (result r) in
  let states := snd (result r) in
  (forall (i : nat) (d : V), (Z.of_nat i < n)%Z ->
     let t := nth i times 0 in
     let y := nth i states d in
     let yp := y <+> h *> f t y in
     nth (S i) states d =
     y <+> (h / 2) *> (f t y <+> f (t + h) yp)) /\
  calls r =
    flat_map
      (fun i : nat =>
         let t := nth i times 0 in
         let y := nth i states y0 in
         let yp := y <+> h *> f t y in
         [(t, y); (t, y); (t + h, yp)])
      (seq 0 (Z.to_nat n)) /\
  length (calls r) = (3 * Z.to_nat n)%nat.
Proof.
  intros r times states.
  destruct (heun_method_runs f h y0 t0 n) as [_ _ _ _ _ Hys Hlog].
  fold r in Hys, Hlog. fold times in Hys, Hlog. fold states in Hys, Hlog.
  split; [|split].
  - intros i d Hi. cbv zeta. rewrite (Hys i d 0) by lia. reflexivity.
  - exact Hlog.
  - rewrite Hlog, (flat_map_length_const _ 3), length_seq by reflexivity. lia.
Qed.

Lemma heun_step_witness :
  let r := heun_method (traced (fun t y : R => t - y)) 2 0 0.5 3 in
  let t := nth 1 (fst (result r)) 0 in
  let y := nth 1 (snd (result r)) 0 in
  nth 2 (snd (result r)) 0 =
  y + 0.5 / 2 * (t - y + (t + 0.5 - (y + 0.5 * (t - y)))).
Proof.
  intros r.
  destruct (heun_step (fun t y : R => t - y) 2 0 0.5 3) as [Hstep _].
  apply (Hstep 1%nat 0). lia.
Defined.

(** ** Bounds on the exponential

    Partial sums of the exponential series, used to locate [exp 0.1]. *)

Lemma exp_partial_at_0 k : exp_partial (S k) 0 = 1.
Proof.
  induction k as [|k IH].
  - cbn. lra.
  - change (exp_partial (S (S k)) 0)
      with (exp_partial (S k) 0 + 0 ^ S k / INR (fact (S k))).
    rewrite IH, pow_i by lia. unfold Rdiv. lra.
Qed.

Lemma monomial_derivative k x :
  derivable_pt_lim (fun y => y ^ S k / INR (fact (S k))) x
    (x ^ k / INR (fact k)).
Proof.
  replace (x ^ k / INR (fact k))
    with (INR (S k) * x ^ pred (S k) * / INR (fact (S k))).
  - apply (derivable_pt_lim_scal_right (fun y => y ^ S k)).
    apply derivable_pt_lim_pow.
  - cbn [pred]. rewrite fact_simpl, mult_INR.
    pose proof (INR_fact_neq_0 k). pose proof (not_0_INR (S k) ltac:(lia)).
    now field.
Qed.

Lemma exp_partial_derivative k x :
  derivable_pt_lim (exp_partial (S k)) x (exp_partial k x).
Proof.
  induction k as [|k IH].
  - cbn. apply (derivable_pt_lim_const (0 + 1 / 1)).
  - change (exp_partial (S (S k)))
      with (fun y => exp_partial (S k) y + y ^ S k / INR (fact (S k))).
    change (exp_partial (S k) x)
      with (exp_partial k x + x ^ k / INR (fact k)).
    apply (derivable_pt_lim_plus (exp_partial (S k))
             (fun y => y ^ S k / INR (fact (S k)))).
    + exact IH.
    + apply monomial_derivative.
Qed.

(** Partial sums bound [exp] from below on the non-negative reals. *)
Lemma exp_partial_le_exp k : forall x, 0 <= x -> exp_partial k x <= exp x.
Proof.
  induction k as [|k IH]; intros x Hx.
  - cbn. left. apply exp_pos.
  - destruct Hx as [Hx| <-]; [|rewrite exp_partial_at_0, exp_0; lra].
    destruct (MVT_cor2 (fun y => exp y - exp_partial (S k) y)
                (fun y => exp y - exp_partial k y) 0 x Hx) as (c & Hc & Hc0).
    { intros y _. apply derivable_pt_lim_minus.
      - apply derivable_pt_lim_exp.
      - apply exp_partial_derivative. }
    cbv beta in Hc. rewrite exp_partial_at_0, exp_0 in Hc.
    specialize (IH c ltac:(lra)). nra.
Qed.

(** With [E] above [exp] on [[0, a]], the partial sum plus [E] times the
    next term bounds [exp] from above there. *)
Lemma exp_le_exp_partial (a E : R) k :
  exp a <= E ->
  forall x, 0 <= x <= a -> exp x <= exp_partial k x + E * (x ^ k / INR (fact k)).
Proof.
  intros HE. induction k as [|k IH]; intros x Hx.
  - cbn. destruct (proj2 Hx) as [Hlt| ->]; [|lra].
    apply exp_increasing in Hlt. lra.
  - destruct (proj1 Hx) as [Hx0| <-].
    2:{ rewrite exp_partial_at_0, exp_0, pow_i by lia. unfold Rdiv. lra. }
    destruct (MVT_cor2
                (fun y => exp_partial (S k) y
                          + E * (y ^ S k / INR (fact (S k))) - exp y)
                (fun y => exp_partial k y + E * (y ^ k / INR (fact k)) - exp y)
                0 x Hx0) as (c & Hc & Hc0).
    { intros y _. apply derivable_pt_lim_minus.
      - apply derivable_pt_lim_plus.
        + apply exp_partial_derivative.
        + apply derivable_pt_lim_scal, monomial_derivative.
      - apply derivable_pt_lim_exp. }
    cbv beta in Hc. rewrite exp_partial_at_0, exp_0, pow_i in Hc by lia.
    specialize (IH c ltac:(lra)). unfold Rdiv in Hc at 2. nra.
Qed.

Lemma exp_partial_5 (x : R) :
  exp_partial 5 x = 1 + x + x ^ 2 / 2 + x ^ 3 / 6 + x ^ 4 / 24.
Proof.
  unfold exp_partial. rewrite !INR_IZR_INZ.
  change (Z.of_nat (fact 0)) with 1%Z. change (Z.of_nat (fact 1)) with 1%Z.
  change (Z.of_nat (fact 2)) with 2%Z. change (Z.of_nat (fact 3)) with 6%Z.
  change (Z.of_nat (fact 4)) with 24%Z. field.
Qed.

Lemma exp_partial_8 (x : R) :
  exp_partial 8 x =
  exp_partial 5 x + x ^ 5 / 120 + x ^ 6 / 720 + x ^ 7 / 5040.
Proof.
  change (exp_partial 8 x)
    with (exp_partial 5 x + x ^ 5 / INR (fact 5) + x ^ 6 / INR (fact 6)
          + x ^ 7 / INR (fact 7)).
  rewrite !INR_IZR_INZ.
  change (Z.of_nat (fact 5)) with 120%Z. change (Z.of_nat (fact 6)) with 720%Z.
  change (Z.of_nat (fact 7)) with 5040%Z. reflexivity.
Qed.

(** [exp 0.1] between the degree-4 partial sum and that sum plus
    [2.5e-7]. *)
Lemma exp_tenth_bounds :
  exp_partial 5 0.1 <= exp 0.1 <= exp_partial 5 0.1 + 0.00000025.
Proof.
  split.
  - apply exp_partial_le_exp. lra.
  - pose proof (exp_le_exp_partial 1 3 5 exp_le_3 0.1 ltac:(lra)) as H.
    eapply Rle_trans; [exact H|].
    apply Rplus_le_compat_l.
    rewrite INR_IZR_INZ. change (Z.of_nat (fact 5)) with 120%Z. lra.
Qed.

(** [exp 0.1] to nine decimals. *)
Lemma exp_tenth_decimal : Rabs (exp 0.1 - 1.105170918) <= 1e-9.
Proof.
  pose proof (exp_partial_le_exp 8 0.1 ltac:(lra)) as Hlo.
  pose proof (exp_le_exp_partial 1 3 8 exp_le_3 0.1 ltac:(lra)) as Hhi.
  rewrite INR_IZR_INZ in Hhi. change (Z.of_nat (fact 8)) with 40320%Z in Hhi.
  rewrite exp_partial_8, exp_partial_5 in Hlo, Hhi.
  apply Rabs_le. lra.
Qed.

(** C9. For [f(t,y) = y], [y0 = 1], [t0 = 0], [h = 0.1], [n = 1],
    [runge_kutta_method] returns [states[1]] within [1e-6] of [exp 0.1],
    which is [1.105170918] to nine decimals. *)
Theorem runge_kutta_exponential_step :
  let states :=
    snd (result (runge_kutta_method (traced (fun _ y : R => y)) 1 0 0.1 1)) in
  Rabs (nth 1 states 0 - exp 0.1) <= 1e-6 /\
  Rabs (exp 0.1 - 1.105170918) <= 1e-9.
Proof.
  split; [|exact exp_tenth_decimal].
  unfold runge_kutta_method, for_range. change (Z.to_nat 1) with 1%nat.
  cbn [iterate bind ret Monad_Traced traced result fst snd nth
       vadd smul vmul vdiv R_StateOps app].
  destruct exp_tenth_bounds as [Hlo Hhi]. rewrite exp_partial_5 in Hlo, Hhi.
  apply Rabs_le. lra.
Qed.

(** ** Negative step counts *)

(** C10. For a negative step count the loop body never runs: in every
    lawful monad, and whatever the derivative does when called, each
    routine is the computation that returns the initial data as
    one-element sequences without performing any effect. *)
Theorem negative_step_count {m : Type -> Type} {Monad_m : Monad m}
  (m_laws : MonadLaws Monad_m) {V : Type} {V_ops : StateOps V}
  (f : R -> V -> m V) (a : R -> V -> V -> m V) (y0 v0 : V) (t0 h : R)
  (n : Z) :
  (n < 0)%Z ->
  euler_method f y0 t0 h n = ret ([t0], [y0]) /\
  heun_method f y0 t0 h n = ret ([t0], [y0]) /\
  runge_kutta_method f y0 t0 h n = ret ([t0], [y0]) /\
  midpoint_method f y0 t0 h n = ret ([t0], [y0]) /\
  euler_method_system f y0 t0 h n = ret ([t0], [y0]) /\
  runge_kutta_method_system f y0 t0 h n = ret ([t0], [y0]) /\
  verlet_method_system a y0 v0 t0 h n = ret ([t0], [y0], [v0]).
Proof.
  intros Hn.
  assert (Hk : Z.to_nat n = 0%nat) by lia.
  unfold euler_method, heun_method, runge_kutta_method, midpoint_method,
    euler_method_system, runge_kutta_method_system, verlet_method_system,
    for_range.
  rewrite Hk. cbn [iterate]. rewrite !(bind_of_return (MonadLaws := m_laws)).
  repeat split.
Qed.

(** A derivative that raises on every call, in the [option] monad, and a
    traced run of a pure acceleration: nothing is raised, nothing called. *)
Lemma negative_step_count_witness :
  (-3 < 0)%Z /\
  heun_method (m := option) (fun (_ _ : R) => None) 1 0 0.1 (-3)
    = Some ([0], [1]) /\
  verlet_method_system (traced3 (fun (_ y _ : R) => - y)) 1 0 0 0.1 (-3)
    = (([0], [1], [0]), []).
Proof.
  split; [lia|split].
  - apply (negative_step_count MonadLaws_option
             (fun (_ _ : R) => None) (fun (_ _ _ : R) => None)
             1 0 0 0.1 (-3)).
    lia.
  - apply (negative_step_count (MonadLaws_Traced (R * R * R))
             (fun (_ _ : R) => ret 0) (traced3 (fun (_ y _ : R) => - y))
             1 0 0 0.1 (-3)).
    lia.
Defined.

(** * Further properties of the routines *)

(** ** Steps and derivative evaluations of the remaining routines *)

(** X1. [midpoint_method] takes the entries [(t, y)] at index [i] to
    [y + k2] with [k1 = h*f(t,y)] and [k2 = h*f(t + h/2, y + k1/2)]; it
    calls [f] twice per step, at [(t, y)] and at [(t + h/2, y + k1/2)]. *)
Theorem midpoint_step {V : Type} {V_ops : StateOps V}
  (f : R -> V -> V) (y0 : V) (t0 h : R) (n : Z) :
  let r := midpoint_method (traced f) y0 t0 h n in
  let times := fst (result r) in
  let states := snd (result r) in
  (forall (i : nat) (d : V), (Z.of_nat i < n)%Z ->
     let t := nth i times 0 in
     let y := nth i states d in
     let k1 := h *> f t y in
     let k2 := h *> f (t + h / 2) (y <+> k1 </ 2) in
     nth (S i) states d = y <+> k2) /\
  calls r =
    flat_map
      (fun i : nat =>
         let t := nth i times 0 in
         let y := nth i states y0 in
         let k1 := h *> f t y in
         [(t, y); (t + h / 2, y <+> k1 </ 2)])
      (seq 0 (Z.to_nat n)) /\
  length (calls r) = (2 * Z.to_nat n)%nat.
Proof.
  intros r times states.
  destruct (midpoint_method_runs f h y0 t0 n) as [_ _ _ _ _ Hys Hlog].
  fold r in Hys, Hlog. fold times in Hys, Hlog. fold states in Hys, Hlog.
  split; [|split].
  - intros i d Hi. cbv zeta. rewrite (Hys i d 0) by lia. reflexivity.
  - exact Hlog.
  - rewrite Hlog, (flat_map_length_const _ 2), length_seq by reflexivity. lia.
Qed.

Lemma midpoint_step_witness :
  let r := midpoint_method (traced (fun t y : R => t - y)) 2 0 0.5 3 in
  let t := nth 1 (fst (result r)) 0 in
  let y := nth 1 (snd (result r)) 0 in
  nth 2 (snd (result r)) 0 =
  y + 0.5 * (t + 0.5 / 2 - (y + 0.5 * (t - y) / 2)).
Proof.
  intros r.
  destruct (midpoint_step (fun t y : R => t - y) 2 0 0.5 3) as [Hstep _].
  apply (Hstep 1%nat 0). lia.
Defined.

(** X2. [runge_kutta_method] takes the entries [(t, y)] at index [i] to
    [y + (k1 + 2*k2 + 2*k3 + k4)*h/6] with [k1 = f(t,y)],
    [k2 = f(t + h/2, y + k1*h/2)], [k3 = f(t + h/2, y + k2*h/2)],
    [k4 = f(t + h, y + k3*h)]; it calls [f] four times per step, at these
    four points in this order. *)
Theorem runge_kutta_step {V : Type} {V_ops : StateOps V}
  (f : R -> V -> V) (y0 : V) (t0 h : R) (n : Z) :
  let r := runge_kutta_method (traced f) y0 t0 h n in
  let times := fst (result r) in
  let states := snd (result r) in
  (forall (i : nat) (d : V), (Z.of_nat i < n)%Z ->
     let t := nth i times 0 in
     let y := nth i states d in
     let k1 := f t y in
     let k2 := f (t + h / 2) (y <+> k1 <* h </ 2) in
     let k3 := f (t + h / 2) (y <+> k2 <* h </ 2) in
     let k4 := f (t + h) (y <+> k3 <* h) in
     nth (S i) states d =
     y <+> (k1 <+> 2 *> k2 <+> 2 *> k3 <+> k4) <* h </ 6) /\
  calls r =
    flat_map
      (fun i : nat =>
         let t := nth i times 0 in
         let y := nth i states y0 in
         let k1 := f t y in
         let k2 := f (t + h / 2) (y <+> k1 <* h </ 2) in
         let k3 := f (t + h / 2) (y <+> k2 <* h </ 2) in
         [(t, y); (t + h / 2, y <+> k1 <* h </ 2);
          (t + h / 2, y <+> k2 <* h </ 2); (t + h, y <+> k3 <* h)])
      (seq 0 (Z.to_nat n)) /\
  length (calls r) = (4 * Z.to_nat n)%nat.
Proof.
  intros r times states.
  destruct (runge_kutta_method_runs f h y0 t0 n) as [_ _ _ _ _ Hys Hlog].
  fold r in Hys, Hlog. fold times in Hys, Hlog. fold states in Hys, Hlog.
  split; [|split].
  - intros i d Hi. cbv zeta. rewrite (Hys i d 0) by lia. reflexivity.
  - exact Hlog.
  - rewrite Hlog, (flat_map_length_const _ 4), length_seq by reflexivity. lia.
Qed.

Lemma runge_kutta_step_witness :
  let r := runge_kutta_method (traced (fun t y : R => t - y)) 2 0 0.5 3 in
  length (calls r) = 12%nat.
Proof.
  intros r.
  destruct (runge_kutta_step (fun t y : R => t - y) 2 0 0.5 3)
    as (_ & _ & Hlen).
  exact Hlen.
Defined.

(** X3. [runge_kutta_method_system] takes the entries [(t, y)] at index
    [i] to [y + (k1 + 2*k2 + 2*k3 + k4)/6] with [k1 = h*f(t,y)],
    [k2 = h*f(t + h/2, y + k1/2)], [k3 = h*f(t + h/2, y + k2/2)],
    [k4 = h*f(t + h, y + k3)]; it calls [f] four times per step, at these
    four points in this order. *)
Theorem runge_kutta_system_step {V : Type} {V_ops : StateOps V}
  (f : R -> V -> V) (y0 : V) (t0 h : R) (n : Z) :
  let r := runge_kutta_method_system (traced f) y0 t0 h n in
  let times := fst (result r) in
  let states := snd (result r) in
  (forall (i : nat) (d : V), (Z.of_nat i < n)%Z ->
     let t := nth i times 0 in
     let y := nth i states d in
     let k1 := h *> f t y in
     let k2 := h *> f (t + h / 2) (y <+> k1 </ 2) in
     let k3 := h *> f (t + h / 2) (y <+> k2 </ 2) in
     let k4 := h *> f (t + h) (y <+> k3) in
     nth (S i) states d =
     y <+> (k1 <+> 2 *> k2 <+> 2 *> k3 <+> k4) </ 6) /\
  calls r =
    flat_map
      (fun i : nat =>
         let t := nth i times 0 in
         let y := nth i states y0 in
         let k1 := h *> f t y in
         let k2 := h *> f (t + h / 2) (y <+> k1 </ 2) in
         let k3 := h *> f (t + h / 2) (y <+> k2 </ 2) in
         [(t, y); (t + h / 2, y <+> k1 </ 2);
          (t + h / 2, y <+> k2 </ 2); (t + h, y <+> k3)])
      (seq 0 (Z.to_nat n)) /\
  length (calls r) = (4 * Z.to_nat n)%nat.
Proof.
  intros r times states.
  destruct (runge_kutta_method_system_runs f h y0 t0 n)
    as [_ _ _ _ _ Hys Hlog].
  fold r in Hys, Hlog. fold times in Hys, Hlog. fold states in Hys, Hlog.
  split; [|split].
  - intros i d Hi. cbv zeta. rewrite (Hys i d 0) by lia. reflexivity.
  - exact Hlog.
  - rewrite Hlog, (flat_map_length_const _ 4), length_seq by reflexivity. lia.
Qed.

Lemma runge_kutta_system_step_witness :
  let r := runge_kutta_method_system
             (traced (fun (t : R) (y : R * R) => (snd y, - fst y)))
             (1, 0) 0 0.5 3 in
  length (calls r) = 12%nat.
Proof.
  intros r.
  destruct (runge_kutta_system_step
              (fun (t : R) (y : R * R) => (snd y, - fst y)) (1, 0) 0 0.5 3)
    as (_ & _ & Hlen).
  exact Hlen.
Defined.

(** X4. [euler_method_system] takes [states[i]] to
    [states[i] + h*f(times[i], states[i])] and calls [f] once per step,
    at [(times[i], states[i])]. *)
Theorem euler_system_step {V : Type} {V_ops : StateOps V}
  (f : R -> V -> V) (y0 : V) (t0 h : R) (n : Z) :
  let r := euler_method_system (traced f) y0 t0 h n in
  let times := fst (result r) in
  let states := snd (result r) in
  (forall (i : nat) (d : V), (Z.of_nat i < n)%Z ->
     nth (S i) states d =
     nth i states d <+> h *> f (nth i times 0) (nth i states d)) /\
  calls r =
    flat_map (fun i : nat => [(nth i times 0, nth i states y0)])
      (seq 0 (Z.to_nat n)) /\
  length (calls r) = Z.to_nat n.
Proof.
  intros r times states.
  destruct (euler_method_system_runs f h y0 t0 n) as [_ _ _ _ _ Hys Hlog].
  fold r in Hys, Hlog. fold times in Hys, Hlog. fold states in Hys, Hlog.
  split; [|split].
  - intros i d Hi. rewrite (Hys i d 0) by lia. reflexivity.
  - exact Hlog.
  - rewrite Hlog, (flat_map_length_const _ 1), length_seq by reflexivity. lia.
Qed.

Lemma euler_system_step_witness :
  let r := euler_method_system
             (traced (fun (t : R) (y : R * R) => (snd y, - fst y)))
             (1, 0) 0 0.5 3 in
  nth 2 (snd (result r)) (0, 0) =
  nth 1 (snd (result r)) (0, 0)
  <+> 0.5 *> (snd (nth 1 (snd (result r)) (0, 0)),
              - fst (nth 1 (snd (result r)) (0, 0))).
Proof.
  intros r.
  destruct (euler_system_step
              (fun (t : R) (y : R * R) => (snd y, - fst y)) (1, 0) 0 0.5 3)
    as [Hstep _].
  apply (Hstep 1%nat (0, 0)). lia.
Defined.

(** X5. [verlet_method_system] calls the acceleration three times per
    step: [3 * n] calls for [n >= 0], none for [n <= 0]. *)
Theorem verlet_call_count {V : Type} {V_ops : StateOps V}
  (f : R -> V -> V -> V) (y0 v0 : V) (t0 h : R) (n : Z) :
  length (calls (verlet_method_system (traced3 f) y0 v0 t0 h n))
  = (3 * Z.to_nat n)%nat.
Proof.
  destruct (verlet_method_system_runs f h t0 y0 v0 n)
    as [_ _ _ _ _ _ _ _ _ Hlog].
  rewrite Hlog, (flat_map_length_const _ 3), length_seq by reflexivity. lia.
Qed.

(** ** Closed forms of trajectories *)

(** A sequence that starts at [y0] and follows the rule of a routine
    along the grid [t0 + i*h] is the sequence of states of its run. *)
Lemma runs_as_closed_form {V : Type}
  (phi : R -> V -> V) (evals : R -> V -> list (R * V))
  (h : R) (y0 : V) (t0 : R) (n : Z) (r : Traced (R * V) (list R * list V))
  (y_ : nat -> V) :
  runs_as h y0 t0 n phi evals r ->
  y_ 0%nat = y0 ->
  (forall i : nat, (Z.of_nat i < n)%Z ->
     phi (t0 + INR i * h) (y_ i) = y_ (S i)) ->
  forall (i : nat) (d : V), (Z.of_nat i <= n)%Z ->
    nth i (snd (result r)) d = y_ i.
Proof.
  intros Hrun Hy0 Hstep.
  destruct (runs_as_grid _ _ _ _ _ _ _ Hrun) as (_ & _ & Hgrid).
  destruct Hrun as [_ _ _ Hfirst _ Hys _].
  induction i as [|i IH]; intros d Hi.
  - now rewrite Hfirst.
  - rewrite (Hys i d 0) by lia.
    rewrite Hgrid, IH by lia. apply Hstep. lia.
Qed.

Section ConstantDerivative.
Context {V : Type} {V_ops : StateOps V} {V_laws : StateLaws V}.
Variables (c : V) (h : R).

Lemma smul_two (v : V) : 2 *> v = v <+> v.
Proof.
  replace 2 with (1 + 1) by lra. now rewrite smul_plus, smul_one.
Qed.

Lemma six_parts (v : V) :
  v <+> 2 *> v <+> 2 *> v <+> v = 6 *> v.
Proof.
  rewrite <- (smul_one v) at 1 4. rewrite <- !smul_plus. f_equal. lra.
Qed.

Lemma euler_rule_constant t y : euler_rule (fun _ _ => c) h t y = y <+> h *> c.
Proof. reflexivity. Qed.

Lemma heun_rule_constant t y : heun_rule (fun _ _ => c) h t y = y <+> h *> c.
Proof.
  unfold heun_rule. rewrite <- smul_two, smul_assoc. do 2 f_equal. lra.
Qed.

Lemma midpoint_rule_constant t y :
  midpoint_rule (fun _ _ => c) h t y = y <+> h *> c.
Proof. reflexivity. Qed.

Lemma rk4_rule_constant t y : rk4_rule (fun _ _ => c) h t y = y <+> h *> c.
Proof.
  unfold rk4_rule, rk4_stages. cbv zeta.
  rewrite six_parts, vmul_smul, vdiv_smul, !smul_assoc by lra.
  do 2 f_equal. lra.
Qed.

Lemma rk4_system_rule_constant t y :
  rk4_system_rule (fun _ _ => c) h t y = y <+> h *> c.
Proof.
  unfold rk4_system_rule, rk4_system_stages. cbv zeta.
  rewrite six_parts, vdiv_smul, !smul_assoc by lra.
  do 2 f_equal. lra.
Qed.

Lemma uniform_motion_step (y0 : V) (i : nat) :
  y0 <+> (INR i * h) *> c <+> h *> c = y0 <+> (INR (S i) * h) *> c.
Proof.
  rewrite <- vadd_assoc, <- smul_plus, S_INR. do 2 f_equal. lra.
Qed.

Lemma uniform_motion_start (y0 : V) : y0 <+> (INR 0 * h) *> c = y0.
Proof. cbn [INR]. now rewrite Rmult_0_l, smul_zero_l, vadd_zero_r. Qed.
End ConstantDerivative.

(** X6. A constant derivative [f(t,y) = c] is integrated exactly by each
    of the six first-order routines: in exact arithmetic
    [states[i] == y0 + (i*h)*c] for every [i] in [[0, n]]. *)
Theorem constant_derivative_trajectories {V : Type} {V_ops : StateOps V}
  (V_laws : StateLaws V) (c y0 : V) (t0 h : R) (n : Z) (i : nat) (d : V) :
  (Z.of_nat i <= n)%Z ->
  let f : R -> V -> V := fun _ _ => c in
  let states (r : Traced (R * V) (list R * list V)) := snd (result r) in
  let y_i := y0 <+> (INR i * h) *> c in
  nth i (states (euler_method (traced f) y0 t0 h n)) d = y_i /\
  nth i (states (heun_method (traced f) y0 t0 h n)) d = y_i /\
  nth i (states (runge_kutta_method (traced f) y0 t0 h n)) d = y_i /\
  nth i (states (midpoint_method (traced f) y0 t0 h n)) d = y_i /\
  nth i (states (euler_method_system (traced f) y0 t0 h n)) d = y_i /\
  nth i (states (runge_kutta_method_system (traced f) y0 t0 h n)) d = y_i.
Proof.
  intros Hi f states y_i. subst f states y_i. cbv beta.
  repeat split;
    (eapply (runs_as_closed_form _ _ _ _ _ _ _
               (fun j => y0 <+> (INR j * h) *> c));
     [solve [eauto using euler_method_runs, heun_method_runs,
               runge_kutta_method_runs, midpoint_method_runs,
               euler_method_system_runs, runge_kutta_method_system_runs]
     |apply uniform_motion_start
     |intros j _;
      rewrite ?euler_rule_constant, ?heun_rule_constant, ?rk4_rule_constant,
        ?midpoint_rule_constant, ?rk4_system_rule_constant;
      apply uniform_motion_step
     |exact Hi]).
Qed.

Lemma constant_derivative_trajectories_witness :
  (Z.of_nat 3 <= 5)%Z /\
  nth 3 (snd (result
    (runge_kutta_method_system (traced (fun (_ : R) (_ : R * R) => (2, -1)))
       (0, 10) 0 0.25 5))) (0, 0)
  = ((0, 10) : R * R) <+> (INR 3 * 0.25) *> ((2, -1) : R * R).
Proof.
  split; [lia|].
  apply (constant_derivative_trajectories (prod_StateLaws R R)
           (2, -1) (0, 10) 0 0.25 5 3%nat (0, 0)).
  lia.
Defined.

(** ** A zero step size *)

Section ZeroStep.
Context {V : Type} {V_ops : StateOps V} {V_laws : StateLaws V}.

Lemma vadd_smul_zero (y u : V) : y <+> 0 *> u = y.
Proof. now rewrite smul_zero_l, vadd_zero_r. Qed.

Lemma euler_rule_h0 (f : R -> V -> V) t y : euler_rule f 0 t y = y.
Proof. apply vadd_smul_zero. Qed.

Lemma heun_rule_h0 (f : R -> V -> V) t y : heun_rule f 0 t y = y.
Proof.
  unfold heun_rule. replace (0 / 2) with 0 by lra. apply vadd_smul_zero.
Qed.

Lemma rk4_rule_h0 (f : R -> V -> V) t y : rk4_rule f 0 t y = y.
Proof.
  unfold rk4_rule. destruct (rk4_stages f 0 t y) as [[[k1 k2] k3] k4].
  rewrite vmul_smul, smul_zero_l, vdiv_zero by lra. apply vadd_zero_r.
Qed.

Lemma midpoint_rule_h0 (f : R -> V -> V) t y : midpoint_rule f 0 t y = y.
Proof. apply vadd_smul_zero. Qed.

Lemma rk4_system_rule_h0 (f : R -> V -> V) t y : rk4_system_rule f 0 t y = y.
Proof.
  unfold rk4_system_rule, rk4_system_stages. cbv zeta.
  rewrite !smul_zero_l, !smul_zero_r, !vadd_zero_r, vdiv_zero by lra.
  apply vadd_zero_r.
Qed.

Lemma verlet_position_h0 (f : R -> V -> V -> V) t y v :
  verlet_position f 0 t y v = y.
Proof.
  unfold verlet_position. replace (0.5 * 0 ^ 2) with 0 by lra.
  now rewrite !vadd_smul_zero.
Qed.

Lemma verlet_velocity_h0 (f : R -> V -> V -> V) t y v :
  verlet_velocity f 0 t y v = v.
Proof.
  unfold verlet_velocity. replace (0.5 * 0) with 0 by lra.
  apply vadd_smul_zero.
Qed.

Lemma verlet_h0_run (f : R -> V -> V -> V) (y0 v0 : V) (t0 : R) (n : Z) :
  let r := verlet_method_system (traced3 f) y0 v0 t0 0 n in
  forall (i : nat) (d : V), (Z.of_nat i <= n)%Z ->
    nth i (snd (fst (result r))) d = y0 /\ nth i (snd (result r)) d = v0.
Proof.
  intros r.
  destruct (verlet_method_system_runs f 0 t0 y0 v0 n)
    as [_ _ _ _ Hy0 Hv0 _ Hys Hvs _].
  fold r in Hy0, Hv0, Hys, Hvs.
  induction i as [|i IH]; intros d Hi.
  - now rewrite Hy0, Hv0.
  - destruct (IH d ltac:(lia)) as [IHy IHv].
    rewrite (Hys i d 0), (Hvs i d 0) by lia.
    now rewrite verlet_position_h0, verlet_velocity_h0.
Qed.
End ZeroStep.

Lemma grid_h0 (t0 : R) (n : Z) (ts : list R) (i : nat) :
  accumulated_grid t0 0 n ts -> (Z.of_nat i <= n)%Z -> nth i ts 0 = t0.
Proof.
  intros (_ & _ & Hgrid) Hi. rewrite Hgrid by exact Hi. lra.
Qed.

(** X7. With step size [h = 0] nothing moves: in exact arithmetic every
    routine returns [times[i] == t0] and [states[i] == y0] (and
    [velocities[i] == v0] for [verlet_method_system]) for every [i] in
    [[0, n]], whatever the derivative. *)
Theorem zero_step_size_trajectories {V : Type} {V_ops : StateOps V}
  (V_laws : StateLaws V) (f : R -> V -> V) (a : R -> V -> V -> V)
  (y0 v0 : V) (t0 : R) (n : Z) (i : nat) (d : V) :
  (Z.of_nat i <= n)%Z ->
  let stays (r : Traced (R * V) (list R * list V)) :=
    nth i (fst (result r)) 0 = t0 /\ nth i (snd (result r)) d = y0 in
  let verlet := verlet_method_system (traced3 a) y0 v0 t0 0 n in
  stays (euler_method (traced f) y0 t0 0 n) /\
  stays (heun_method (traced f) y0 t0 0 n) /\
  stays (runge_kutta_method (traced f) y0 t0 0 n) /\
  stays (midpoint_method (traced f) y0 t0 0 n) /\
  stays (euler_method_system (traced f) y0 t0 0 n) /\
  stays (runge_kutta_method_system (traced f) y0 t0 0 n) /\
  nth i (fst (fst (result verlet))) 0 = t0 /\
  nth i (snd (fst (result verlet))) d = y0 /\
  nth i (snd (result verlet)) d = v0.
Proof.
  intros Hi stays verlet. subst stays. cbv beta.
  assert (Hone : forall phi evals r,
            runs_as 0 y0 t0 n phi evals r ->
            (forall t y, phi t y = y) ->
            nth i (fst (result r)) 0 = t0 /\ nth i (snd (result r)) d = y0).
  { intros phi evals r Hrun Hphi. split.
    - eapply grid_h0; [eapply runs_as_grid; exact Hrun|exact Hi].
    - eapply runs_as_constant; [exact Hphi|exact Hrun|exact Hi]. }
  split; [eapply Hone; [apply euler_method_runs|apply euler_rule_h0]|].
  split; [eapply Hone; [apply heun_method_runs|apply heun_rule_h0]|].
  split; [eapply Hone; [apply runge_kutta_method_runs|apply rk4_rule_h0]|].
  split; [eapply Hone; [apply midpoint_method_runs|apply midpoint_rule_h0]|].
  split; [eapply Hone; [apply euler_method_system_runs|apply euler_rule_h0]|].
  split; [eapply Hone;
          [apply runge_kutta_method_system_runs|apply rk4_system_rule_h0]|].
  split.
  - destruct (verlet_method_system_runs a 0 t0 y0 v0 n)
      as [_ _ _ Ht0 _ _ Hts _ _ _].
    eapply grid_h0; [apply accumulated_grid_intro; eassumption|exact Hi].
  - exact (verlet_h0_run a y0 v0 t0 n i d Hi).
Qed.

Lemma zero_step_size_trajectories_witness :
  (Z.of_nat 2 <= 3)%Z /\
  nth 2 (snd (result
    (heun_method (traced (fun t y : R => t * y + 1)) 5 1 0 3))) 0 = 5.
Proof.
  split; [lia|].
  apply (zero_step_size_trajectories R_StateLaws
           (fun t y : R => t * y + 1) (fun _ _ _ : R => 0) 5 0 1 3 2%nat 0).
  lia.
Defined.

(** ** Failures of the derivative and empty runs *)

(** X8. A failure of the derivative is not caught: with [None] standing
    for a raised exception, if at least one step is requested and the
    first call [f(t0, y0)] (for Verlet [f(t0, y0, v0)]) fails, every
    routine fails. *)
Theorem first_call_failure_propagates {V : Type} {V_ops : StateOps V}
  (f : R -> V -> option V) (a : R -> V -> V -> option V)
  (y0 v0 : V) (t0 h : R) (n : Z) :
  (1 <= n)%Z -> f t0 y0 = None -> a t0 y0 v0 = None ->
  euler_method f y0 t0 h n = None /\
  heun_method f y0 t0 h n = None /\
  runge_kutta_method f y0 t0 h n = None /\
  midpoint_method f y0 t0 h n = None /\
  euler_method_system f y0 t0 h n = None /\
  runge_kutta_method_system f y0 t0 h n = None /\
  verlet_method_system a y0 v0 t0 h n = None.
Proof.
  intros Hn Hf Ha.
  unfold euler_method, heun_method, runge_kutta_method, midpoint_method,
    euler_method_system, runge_kutta_method_system, verlet_method_system,
    for_range.
  destruct (Z.to_nat n) as [|k] eqn:Hk; [lia|].
  cbn [iterate bind Monad_option]. rewrite Hf, Ha.
  repeat split.
Qed.

Lemma first_call_failure_propagates_witness :
  (1 <= 4)%Z /\
  runge_kutta_method
    (fun t y : R => if Rle_dec y 0 then None else Some (t / y)) 0 1 0.1 4
  = None.
Proof.
  split; [lia|].
  apply (first_call_failure_propagates
           (fun t y : R => if Rle_dec y 0 then None else Some (t / y))
           (fun _ _ _ : R => None) 0 0 1 0.1 4).
  - lia.
  - destruct (Rle_dec 0 0) as [_|Hn]; [reflexivity|exfalso; lra].
  - reflexivity.
Defined.

(** X9. With [n = 0] the loop body never runs: in every lawful monad, and
    whatever the derivative does when called, each routine returns the
    initial data as one-element sequences and performs no effect (in
    particular it makes no call of the derivative). *)
Theorem zero_step_count {m : Type -> Type} {Monad_m : Monad m}
  (m_laws : MonadLaws Monad_m) {V : Type} {V_ops : StateOps V}
  (f : R -> V -> m V) (a : R -> V -> V -> m V) (y0 v0 : V) (t0 h : R) :
  euler_method f y0 t0 h 0 = ret ([t0], [y0]) /\
  heun_method f y0 t0 h 0 = ret ([t0], [y0]) /\
  runge_kutta_method f y0 t0 h 0 = ret ([t0], [y0]) /\
  midpoint_method f y0 t0 h 0 = ret ([t0], [y0]) /\
  euler_method_system f y0 t0 h 0 = ret ([t0], [y0]) /\
  runge_kutta_method_system f y0 t0 h 0 = ret ([t0], [y0]) /\
  verlet_method_system a y0 v0 t0 h 0 = ret ([t0], [y0], [v0]).
Proof.
  unfold euler_method, heun_method, runge_kutta_method, midpoint_method,
    euler_method_system, runge_kutta_method_system, verlet_method_system,
    for_range.
  change (Z.to_nat 0) with 0%nat. cbn [iterate].
  rewrite !(bind_of_return (MonadLaws := m_laws)).
  repeat split.
Qed.

Lemma zero_step_count_witness :
  midpoint_method (m := option) (fun (_ _ : R) => None) 1 0 0.1 0
    = Some ([0], [1]) /\
  euler_method (traced (fun t y : R => t * y)) 1 0 0.1 0 = (([0], [1]), []).
Proof.
  split.
  - apply (zero_step_count MonadLaws_option
             (fun (_ _ : R) => None) (fun (_ _ _ : R) => None) 1 0 0 0.1).
  - apply (zero_step_count (MonadLaws_Traced (R * R))
             (traced (fun t y : R => t * y)) (fun (_ _ _ : R) => ret 0)
             1 0 0 0.1).
Defined.

(** ** Runs continued from where a run ended *)

Section TracedLoopSplit.
Context {E St : Type}.
Implicit Types (body : St -> Traced E St) (s : St).

Lemma iterate_add body k1 k2 s :
  iterate (k1 + k2) body s = (s' <- iterate k1 body s ;; iterate k2 body s').
Proof.
  revert s; induction k1 as [|k1 IH]; intros s.
  - cbn. now destruct (iterate k2 body s).
  - cbn [Nat.add iterate bind Monad_Traced]. destruct (body s) as [s1 l1].
    rewrite IH. cbn [bind Monad_Traced].
    destruct (iterate k1 body s1) as [s2 l2].
    destruct (iterate k2 body s2) as [s3 l3].
    now rewrite app_assoc.
Qed.
End TracedLoopSplit.

Lemma tl_app_nonempty {A : Type} (l l' : list A) :
  l <> [] -> tl (l ++ l') = tl l ++ l'.
Proof. now destruct l. Qed.

Section OneStepSplit.
Context {V : Type}.
Variables (phi : R -> V -> V) (evals : R -> V -> list (R * V)) (h : R).

Local Abbreviation step := (advance phi evals h).





End OneStepSplit.



Section VerletSplit.
Context {V : Type} {V_ops : StateOps V}.
Variables (f : R -> V -> V -> V) (h : R).

Local Abbreviation vstep := (verlet_advance f h).

Lemma iterate_verlet_last k t0 y0 v0 :
  forall ts ys vs y v t log,
    iterate k vstep ([t0], [y0], [v0], y0, v0, t0)
    = ((ts, ys, vs, y, v, t), log) ->
    ts <> [] /\ ys <> [] /\ vs <> [] /\
    (forall d, last ts d = t) /\ (forall d, last ys d = y) /\
    (forall d, last vs d = v).
Proof.
  destruct k as [|k]; intros ts ys vs y v t log.
  - cbn. intros [= <- <- <- <- <- <- <-]. repeat split; discriminate.
  - rewrite iterate_snoc. cbn [bind Monad_Traced].
    destruct (iterate k vstep ([t0], [y0], [v0], y0, v0, t0))
      as [[[[[[ts1 ys1] vs1] y1] v1] t1] log1].
    cbn. intros [= <- <- <- <- <- <- <-].
    repeat split; try (intros d; apply last_last);
      intros H; apply app_eq_nil in H; destruct H; discriminate.
Qed.

Lemma iterate_verlet_from k :
  forall ts ys vs y v t,
    iterate k vstep (ts, ys, vs, y, v, t) =
    let '((ts', ys', vs', y', v', t'), log) :=
      iterate k vstep ([t], [y], [v], y, v, t) in
    ((ts ++ tl ts', ys ++ tl ys', vs ++ tl vs', y', v', t'), log).
Proof.
  induction k as [|k IH]; intros ts ys vs y v t.
  - cbn. now rewrite !app_nil_r.
  - rewrite !iterate_snoc, IH. cbn [bind Monad_Traced].
    destruct (iterate k vstep ([t], [y], [v], y, v, t))
      as [[[[[[ts1 ys1] vs1] y1] v1] t1] log1] eqn:Hk.
    destruct (iterate_verlet_last _ _ _ _ _ _ _ _ _ _ _ Hk)
      as (Hts & Hys & Hvs & _).
    cbn. rewrite !tl_app_nonempty, !app_assoc by assumption. reflexivity.
Qed.

Lemma verlet_method_system_returned (y0 v0 : V) (t0 : R) (n : Z) :
  verlet_method_system (traced3 f) y0 v0 t0 h n
  = returned3 (iterate (Z.to_nat n) vstep ([t0], [y0], [v0], y0, v0, t0)).
Proof.
  unfold verlet_method_system, for_range.
  rewrite (iterate_ext _ vstep)
    by (intros [[[[[ts ys] vs] y] v] t]; reflexivity).
  cbn [bind ret Monad_Traced].
  destruct (iterate (Z.to_nat n) vstep ([t0], [y0], [v0], y0, v0, t0))
    as [[[[[[ts ys] vs] y] v] t] log].
  cbn. now rewrite app_nil_r.
Qed.

Lemma returned3_iterate_add k1 k2 t0 y0 v0 :
  let r1 := returned3 (iterate k1 vstep ([t0], [y0], [v0], y0, v0, t0)) in
  let t1 := last (fst (fst (result r1))) t0 in
  let y1 := last (snd (fst (result r1))) y0 in
  let v1 := last (snd (result r1)) v0 in
  returned3 (iterate (k1 + k2) vstep ([t0], [y0], [v0], y0, v0, t0)) =
  joined3 r1 (returned3 (iterate k2 vstep ([t1], [y1], [v1], y1, v1, t1))).
Proof.
  rewrite iterate_add. cbn [bind Monad_Traced].
  destruct (iterate k1 vstep ([t0], [y0], [v0], y0, v0, t0))
    as [[[[[[ts1 ys1] vs1] y1] v1] t1] log1] eqn:Hk.
  destruct (iterate_verlet_last _ _ _ _ _ _ _ _ _ _ _ Hk)
    as (_ & _ & _ & Ht & Hy & Hv).
  cbn [returned3 result calls fst snd]. rewrite Ht, Hy, Hv.
  rewrite iterate_verlet_from.
  destruct (iterate k2 vstep ([t1], [y1], [v1], y1, v1, t1))
    as [[[[[[ts2 ys2] vs2] y2] v2] t2] log2].
  reflexivity.
Qed.
End VerletSplit.

(** X11. A Verlet run can be continued: for [n1, n2 >= 0], the run of
    [n1 + n2] steps is the run of [n1] steps followed by the run of [n2]
    steps started from the last time, position and velocity of the first,
    and its calls of the acceleration are those of the two runs in
    sequence. *)
Theorem verlet_runs_continue {V : Type} {V_ops : StateOps V}
  (f : R -> V -> V -> V) (y0 v0 : V) (t0 h : R) (n1 n2 : Z) :
  (0 <= n1)%Z -> (0 <= n2)%Z ->
  let r1 := verlet_method_system (traced3 f) y0 v0 t0 h n1 in
  let t1 := last (fst (fst (result r1))) t0 in
  let y1 := last (snd (fst (result r1))) y0 in
  let v1 := last (snd (result r1)) v0 in
  verlet_method_system (traced3 f) y0 v0 t0 h (n1 + n2)
  = joined3 r1 (verlet_method_system (traced3 f) y1 v1 t1 h n2).
Proof.
  intros H1 H2. cbv zeta. rewrite !verlet_method_system_returned.
  rewrite Z2Nat.inj_add by assumption. apply returned3_iterate_add.
Qed.

Lemma verlet_runs_continue_witness :
  let f := fun (t y v : R) => - y in
  let r1 := verlet_method_system (traced3 f) 1 0 0 0.5 2 in
  verlet_method_system (traced3 f) 1 0 0 0.5 (2 + 1)
  = joined3 r1
      (verlet_method_system (traced3 f)
         (last (snd (fst (result r1))) 1) (last (snd (result r1)) 0)
         (last (fst (fst (result r1))) 0) 0.5 1).
Proof.
  intros f r1.
  exact (verlet_runs_continue f 1 0 0 0.5 2 1 ltac:(lia) ltac:(lia)).
Defined.

(** ** Closed forms on floats *)

Ltac unfold_rules :=
  unfold euler_rule, heun_rule, midpoint_rule, rk4_rule, rk4_stages,
    rk4_system_rule, rk4_system_stages;
  cbv zeta; cbn [vadd smul vmul vdiv R_StateOps].

Ltac closed_form_of run_lemma y_ Hi :=
  eapply (runs_as_closed_form _ _ _ _ _ _ _ y_);
  [apply run_lemma
  |cbv beta; cbn [INR pow]; lra
  |intros j _; cbv beta; rewrite S_INR; unfold_rules; cbn [pow]; field
  |exact Hi].

(** X12. The derivative [f(t,y) = a*t + b] on floats: in exact
    arithmetic Heun, midpoint and both Runge-Kutta routines return the
    exact solution [y0 + b*s + a*(t0*s + s^2/2)] at [s = i*h], for every
    [i] in [[0, n]]; the two Euler routines return it less
    [a*h^2*i/2]. *)
Theorem affine_in_time_trajectories (a b y0 t0 h : R) (n : Z)
  (i : nat) (d : R) :
  (Z.of_nat i <= n)%Z ->
  let f : R -> R -> R := fun t _ => a * t + b in
  let states (r : Traced (R * R) (list R * list R)) := snd (result r) in
  let s := INR i * h in
  let exact := y0 + b * s + a * (t0 * s + s ^ 2 / 2) in
  nth i (states (heun_method (traced f) y0 t0 h n)) d = exact /\
  nth i (states (midpoint_method (traced f) y0 t0 h n)) d = exact /\
  nth i (states (runge_kutta_method (traced f) y0 t0 h n)) d = exact /\
  nth i (states (runge_kutta_method_system (traced f) y0 t0 h n)) d = exact /\
  nth i (states (euler_method (traced f) y0 t0 h n)) d
    = exact - a * h ^ 2 * INR i / 2 /\
  nth i (states (euler_method_system (traced f) y0 t0 h n)) d
    = exact - a * h ^ 2 * INR i / 2.
Proof.
  intros Hi f states s exact. subst f states s exact. cbv beta.
  split; [closed_form_of heun_method_runs
    (fun j : nat =>
       y0 + b * (INR j * h) + a * (t0 * (INR j * h) + (INR j * h) ^ 2 / 2))
    Hi|].
  split; [closed_form_of midpoint_method_runs
    (fun j : nat =>
       y0 + b * (INR j * h) + a * (t0 * (INR j * h) + (INR j * h) ^ 2 / 2))
    Hi|].
  split; [closed_form_of runge_kutta_method_runs
    (fun j : nat =>
       y0 + b * (INR j * h) + a * (t0 * (INR j * h) + (INR j * h) ^ 2 / 2))
    Hi|].
  split; [closed_form_of runge_kutta_method_system_runs
    (fun j : nat =>
       y0 + b * (INR j * h) + a * (t0 * (INR j * h) + (INR j * h) ^ 2 / 2))
    Hi|].
  split; [closed_form_of euler_method_runs
    (fun j : nat =>
       y0 + b * (INR j * h) + a * (t0 * (INR j * h) + (INR j * h) ^ 2 / 2)
       - a * h ^ 2 * INR j / 2)
    Hi|].
  closed_form_of euler_method_system_runs
    (fun j : nat =>
       y0 + b * (INR j * h) + a * (t0 * (INR j * h) + (INR j * h) ^ 2 / 2)
       - a * h ^ 2 * INR j / 2)
    Hi.
Qed.

Lemma affine_in_time_trajectories_witness :
  (Z.of_nat 4 <= 4)%Z /\
  nth 4 (snd (result
    (midpoint_method (traced (fun t _ : R => 2 * t + 1)) 0 0 0.25 4))) 0
  = 0 + 1 * (INR 4 * 0.25)
    + 2 * (0 * (INR 4 * 0.25) + (INR 4 * 0.25) ^ 2 / 2).
Proof.
  split; [lia|].
  apply (affine_in_time_trajectories 2 1 0 0 0.25 4 4%nat 0).
  lia.
Defined.

(** X13. Linear growth [f(t,y) = lam*y] on floats: in exact arithmetic
    each routine multiplies the state by a fixed factor per step, a
    polynomial in [z = h*lam]: [1 + z] for the Euler routines,
    [1 + z + z^2/2] for Heun and midpoint (which therefore agree), and
    [1 + z + z^2/2 + z^3/6 + z^4/24] for the Runge-Kutta routines; so
    [states[i]] is that factor to the power [i] times [y0]. *)
Theorem linear_growth_trajectories (lam y0 t0 h : R) (n : Z)
  (i : nat) (d : R) :
  (Z.of_nat i <= n)%Z ->
  let f : R -> R -> R := fun _ y => lam * y in
  let states (r : Traced (R * R) (list R * list R)) := snd (result r) in
  let z := h * lam in
  nth i (states (euler_method (traced f) y0 t0 h n)) d = (1 + z) ^ i * y0 /\
  nth i (states (euler_method_system (traced f) y0 t0 h n)) d
    = (1 + z) ^ i * y0 /\
  nth i (states (heun_method (traced f) y0 t0 h n)) d
    = (1 + z + z ^ 2 / 2) ^ i * y0 /\
  nth i (states (midpoint_method (traced f) y0 t0 h n)) d
    = (1 + z + z ^ 2 / 2) ^ i * y0 /\
  nth i (states (runge_kutta_method (traced f) y0 t0 h n)) d
    = (1 + z + z ^ 2 / 2 + z ^ 3 / 6 + z ^ 4 / 24) ^ i * y0 /\
  nth i (states (runge_kutta_method_system (traced f) y0 t0 h n)) d
    = (1 + z + z ^ 2 / 2 + z ^ 3 / 6 + z ^ 4 / 24) ^ i * y0.
Proof.
  intros Hi f states z. subst f states z. cbv beta.
  pose (p1 := fun j : nat => (1 + h * lam) ^ j * y0).
  pose (p2 := fun j : nat =>
    (1 + h * lam + (h * lam) ^ 2 / 2) ^ j * y0).
  pose (p4 := fun j : nat =>
    (1 + h * lam + (h * lam) ^ 2 / 2 + (h * lam) ^ 3 / 6
     + (h * lam) ^ 4 / 24) ^ j * y0).
  assert (Hpow : forall (q : R) (j : nat), q ^ S j = q * q ^ j)
    by reflexivity.
  repeat split;
    [eapply (runs_as_closed_form _ _ _ _ _ _ _ p1);
       [apply euler_method_runs| | |exact Hi]
    |eapply (runs_as_closed_form _ _ _ _ _ _ _ p1);
       [apply euler_method_system_runs| | |exact Hi]
    |eapply (runs_as_closed_form _ _ _ _ _ _ _ p2);
       [apply heun_method_runs| | |exact Hi]
    |eapply (runs_as_closed_form _ _ _ _ _ _ _ p2);
       [apply midpoint_method_runs| | |exact Hi]
    |eapply (runs_as_closed_form _ _ _ _ _ _ _ p4);
       [apply runge_kutta_method_runs| | |exact Hi]
    |eapply (runs_as_closed_form _ _ _ _ _ _ _ p4);
       [apply runge_kutta_method_system_runs| | |exact Hi]];
    try (unfold p1, p2, p4; cbn [pow]; lra);
    intros j _; unfold p1, p2, p4; rewrite (Hpow _ j); unfold_rules; field.
Qed.

Lemma linear_growth_trajectories_witness :
  (Z.of_nat 3 <= 10)%Z /\
  nth 3 (snd (result
    (euler_method (traced (fun _ y : R => -2 * y)) 1 0 0.1 10))) 0
  = (1 + 0.1 * -2) ^ 3 * 1.
Proof.
  split; [lia|].
  apply (linear_growth_trajectories (-2) 1 0 0.1 10 3%nat 0).
  lia.
Defined.

(** ** More on the Verlet routine *)

(** X14. With a constant acceleration [g], in exact arithmetic the
    velocities returned by [verlet_method_system] are
    [v_i = v0 + (i*h)*g] for every index [i] in [[0, n]]. *)
Theorem verlet_constant_acceleration_velocity {V : Type}
  {V_ops : StateOps V} (V_laws : StateLaws V) (g y0 v0 : V) (t0 h : R)
  (n : Z) (i : nat) (d : V) :
  (Z.of_nat i <= n)%Z ->
  let r := verlet_method_system (traced3 (fun _ _ _ => g)) y0 v0 t0 h n in
  nth i (snd (result r)) d = v0 <+> (INR i * h) *> g.
Proof.
  intros Hi r.
  exact (proj2 (constant_acceleration_run g y0 v0 t0 h n i d Hi)).
Qed.

Lemma verlet_constant_acceleration_velocity_witness :
  (Z.of_nat 2 <= 3)%Z /\
  nth 2 (snd (result
     (verlet_method_system (traced3 (fun (_ : R) (_ _ : R * R) => (0, -9.8)))
        (0, 10) (3, 4) 0 0.1 3))) (0, 0) =
  ((3, 4) : R * R) <+> (INR 2 * 0.1) *> ((0, -9.8) : R * R).
Proof.
  split; [lia|].
  apply (verlet_constant_acceleration_velocity (prod_StateLaws R R)
           (0, -9.8) (0, 10) (3, 4) 0 0.1 3 2%nat (0, 0)).
  lia.
Defined.

(** One Verlet step of the oscillator [f(t,y,v) = -(w*w)*y] keeps
    [v^2 + w^2*(1 - (h*w)^2/4)*y^2]. *)
Lemma oscillator_step_invariant (w h t y v : R) :
  let f := fun (_ y _ : R) => - (w * w) * y in
  let c := w ^ 2 * (1 - (h * w) ^ 2 / 4) in
  verlet_velocity f h t y v ^ 2 + c * verlet_position f h t y v ^ 2
  = v ^ 2 + c * y ^ 2.
Proof.
  cbv zeta. unfold verlet_velocity, verlet_position.
  cbn [vadd smul R_StateOps]. replace 0.5 with (1 / 2) by lra. field.
Qed.

(** X15. For the harmonic oscillator [f(t,y,v) = -(w*w)*y] on floats, in
    exact arithmetic [verlet_method_system] conserves the quantity
    [v^2 + w^2*(1 - (h*w)^2/4)*y^2]: it has the same value at every index
    [i] in [[0, n]] as at the initial data. *)
Theorem verlet_oscillator_invariant (w y0 v0 t0 h : R) (n : Z)
  (i : nat) (d : R) :
  (Z.of_nat i <= n)%Z ->
  let r := verlet_method_system
             (traced3 (fun (_ y _ : R) => - (w * w) * y)) y0 v0 t0 h n in
  let c := w ^ 2 * (1 - (h * w) ^ 2 / 4) in
  nth i (snd (result r)) d ^ 2 + c * nth i (snd (fst (result r))) d ^ 2
  = v0 ^ 2 + c * y0 ^ 2.
Proof.
  intros Hi r c.
  destruct (verlet_method_system_runs
              (fun (_ y _ : R) => - (w * w) * y) h t0 y0 v0 n)
    as [_ _ _ _ Hy0 Hv0 _ Hys Hvs _].
  fold r in Hy0, Hv0, Hys, Hvs.
  induction i as [|i IH].
  - now rewrite Hy0, Hv0.
  - rewrite (Hys i d 0), (Hvs i d 0) by lia.
    rewrite <- IH by lia. apply oscillator_step_invariant.
Qed.

Lemma verlet_oscillator_invariant_witness :
  (Z.of_nat 5 <= 8)%Z /\
  let r := verlet_method_system
             (traced3 (fun (_ y _ : R) => - (2 * 2) * y)) 1 0 0 0.1 8 in
  nth 5 (snd (result r)) 0 ^ 2
  + 2 ^ 2 * (1 - (0.1 * 2) ^ 2 / 4) * nth 5 (snd (fst (result r))) 0 ^ 2
  = 0 ^ 2 + 2 ^ 2 * (1 - (0.1 * 2) ^ 2 / 4) * 1 ^ 2.
Proof.
  split; [lia|].
  apply (verlet_oscillator_invariant 2 1 0 0 0.1 8 5%nat 0).
  lia.
Defined.

Lemma last_nth_of_length {A : Type} (l : list A) (d : A) (k : nat) :
  length l = S k -> last l d = nth k l d.
Proof.
  revert k; induction l as [|x l IH]; intros k Hlen; [discriminate|].
  destruct l as [|x' l].
  - destruct k; [reflexivity|discriminate].
  - destruct k as [|k]; [discriminate|].
    change (last (x :: x' :: l) d) with (last (x' :: l) d).
    cbn [nth]. apply IH. cbn in Hlen |- *. lia.
Qed.

(** A step with [-h] undoes a step with [h] when the acceleration does
    not depend on the velocity. *)
Lemma verlet_step_back (a : R -> R -> R) (h t y v : R) :
  let f := fun (t y _ : R) => a t y in
  let y' := verlet_position f h t y v in
  let v' := verlet_velocity f h t y v in
  verlet_position f (- h) (t + h) y' v' = y /\
  verlet_velocity f (- h) (t + h) y' v' = v.
Proof.
  intros f y' v'.
  assert (Hp : verlet_position f (- h) (t + h) y' v' = y).
  { unfold verlet_position at 1. subst y' v' f.
    unfold verlet_velocity, verlet_position. cbn [vadd smul R_StateOps].
    replace 0.5 with (1 / 2) by lra. field. }
  split; [exact Hp|].
  unfold verlet_velocity at 1. rewrite Hp.
  replace (t + h + - h) with t by lra.
  subst y' v' f. unfold verlet_velocity, verlet_position.
  cbn [vadd smul R_StateOps]. replace 0.5 with (1 / 2) by lra. field.
Qed.

(** X16. Time reversal on floats, for an acceleration [f(t,y,v) = a(t,y)]
    that does not depend on the velocity: in exact arithmetic, running
    [verlet_method_system] for [n] steps with [h] and then for [n] steps
    with [-h] from the last time, position and velocity retraces the
    forward run backwards: entry [i] of the backward run is entry
    [n - i] of the forward run, so it ends at [(t0, y0, v0)]. *)
Theorem verlet_time_reversal (a : R -> R -> R) (y0 v0 t0 h : R) (n : Z)
  (i : nat) (d : R) :
  (Z.of_nat i <= n)%Z ->
  let f := fun (t y _ : R) => a t y in
  let fwd := verlet_method_system (traced3 f) y0 v0 t0 h n in
  let t_n := last (fst (fst (result fwd))) t0 in
  let y_n := last (snd (fst (result fwd))) y0 in
  let v_n := last (snd (result fwd)) v0 in
  let bwd := verlet_method_system (traced3 f) y_n v_n t_n (- h) n in
  nth i (fst (fst (result bwd))) d
    = nth (Z.to_nat n - i) (fst (fst (result fwd))) d /\
  nth i (snd (fst (result bwd))) d
    = nth (Z.to_nat n - i) (snd (fst (result fwd))) d /\
  nth i (snd (result bwd)) d
    = nth (Z.to_nat n - i) (snd (result fwd)) d.
Proof.
  intros Hi f fwd t_n y_n v_n bwd.
  destruct (verlet_method_system_runs f h t0 y0 v0 n)
    as [Flt Fly Flv _ _ _ Fts Fys Fvs _].
  fold fwd in Flt, Fly, Flv, Fts, Fys, Fvs.
  destruct (verlet_method_system_runs f (- h) t_n y_n v_n n)
    as [_ _ _ Bt0 By0 Bv0 Bts Bys Bvs _].
  fold bwd in Bt0, By0, Bv0, Bts, Bys, Bvs.
  induction i as [|i IH].
  - rewrite Bt0, By0, Bv0, Nat.sub_0_r. subst t_n y_n v_n.
    rewrite (last_nth_of_length _ t0 _ Flt), (last_nth_of_length _ y0 _ Fly),
      (last_nth_of_length _ v0 _ Flv).
    repeat split; apply nth_indep; lia.
  - destruct (IH ltac:(lia)) as (IHt & IHy & IHv).
    assert (Hk : (Z.to_nat n - i = S (Z.to_nat n - S i))%nat) by lia.
    set (k := (Z.to_nat n - S i)%nat) in *.
    assert (Hlt : (k < Z.to_nat n)%nat) by lia.
    rewrite Hk in IHt, IHy, IHv.
    rewrite (Bts i d), (Bys i d d), (Bvs i d d) by lia.
    rewrite IHt, IHy, IHv.
    rewrite (Fts k d Hlt), (Fys k d d Hlt), (Fvs k d d Hlt).
    destruct (verlet_step_back a h (nth k (fst (fst (result fwd))) d)
                (nth k (snd (fst (result fwd))) d)
                (nth k (snd (result fwd)) d)) as [Hp Hv].
    split; [lra|split; [exact Hp|exact Hv]].
Qed.

Lemma verlet_time_reversal_witness :
  (Z.of_nat 4 <= 4)%Z /\
  let f := fun (t y _ : R) => - y + t in
  let fwd := verlet_method_system (traced3 f) 1 0 0 0.5 4 in
  let bwd := verlet_method_system (traced3 f)
               (last (snd (fst (result fwd))) 1) (last (snd (result fwd)) 0)
               (last (fst (fst (result fwd))) 0) (- (0.5)) 4 in
  nth 4 (snd (fst (result bwd))) 0
  = nth (Z.to_nat 4 - 4) (snd (fst (result fwd))) 0.
Proof.
  split; [lia|].
  intros f fwd bwd.
  destruct (verlet_time_reversal (fun t y : R => - y + t) 1 0 0 0.5 4
              4%nat 0 ltac:(lia)) as (_ & Hy & _).
  exact Hy.
Defined.
